(** * HeyPico Maps backend: middleware and gateway normalisation

    A shallow embedding of the TypeScript backend (the Hono middleware,
    the Zod request schema of search-places and the Google Maps service
    wrapper) together with the properties stated about it.

    Conventions.
    - A JavaScript string is a [string], a sequence of 8-bit units: ASCII
      text unit for unit, other text by its UTF-8 bytes.  The code only
      compares units with ASCII characters, searches and cuts at ASCII
      patterns, and percent-escapes.  [s.length], which counts UTF-16
      units, is [Js.utf16_length]; for the test [s.length >= 1] it is
      enough that the text has a byte.
    - [Date.now()], the rate-limit window and the request quota are
      integers ([Z]); other numbers are rationals ([Q]).  Values read
      from the environment are arguments of the functions that use them.
    - The in-memory [Map] of the rate limiter is a [gmap string _];
      mutation of an entry held by the map is an [insert] at its key.
    - A function that can throw returns a sum: [inl] for the thrown
      [JsError], [inr] for the returned value.  Logging is left out. *)

From Stdlib Require Import ZArith QArith Ascii String List Lia Bool.
From stdpp Require Import base option list gmap strings.
From Equations Require Import Equations.

Local Open Scope Z_scope.
Local Open Scope string_scope.
Set Warnings "-register-all".

(** ** JavaScript string primitives used by the code *)

Module Js.

(** Truthiness of a string value: the empty string is falsy. *)
Definition truthy (s : string) : bool :=
  match s with EmptyString => false | String _ _ => true end.

(** Truthiness of a string that may be [undefined]. *)
Definition truthy_opt (o : option string) : bool :=
  match o with Some s => truthy s | None => false end.

(** [a || b] where [a] may be [undefined] and [b] is a string. *)
Definition or_else (a : option string) (b : string) : string :=
  match a with
  | Some s => if truthy s then s else b
  | None => b
  end.

(** [a || b] where both sides may be [undefined]. *)
Definition or_undef (a b : option string) : option string :=
  match a with
  | Some s => if truthy s then Some s else b
  | None => b
  end.

(** [s.includes(p)]: [p] occurs in [s] as a contiguous run of units. *)
Fixpoint includes (p s : string) : bool :=
  String.prefix p s ||
  match s with
  | EmptyString => false
  | String _ s' => includes p s'
  end.

Fixpoint drop (n : nat) (s : string) : string :=
  match n, s with
  | O, _ => s
  | S n', EmptyString => EmptyString
  | S n', String _ s' => drop n' s'
  end.

(** [s.replace(p, r)] with a string pattern: only the first occurrence
    of [p] (scanning from the left) is replaced. *)
Fixpoint replace_first (p r s : string) : string :=
  if String.prefix p s then r ++ drop (String.length p) s
  else match s with
       | EmptyString => EmptyString
       | String c s' => String c (replace_first p r s')
       end.

(** [s.length]: the number of UTF-16 units of the text whose UTF-8
    bytes are [s].  A byte below 128 or the first byte of a two- or
    three-byte sequence stands for one unit, the first byte of a
    four-byte sequence for the two units of a surrogate pair, and a
    continuation byte for none. *)
Definition utf16_units (c : ascii) : nat :=
  let n := N_of_ascii c in
  if (n <? 128)%N then 1%nat
  else if (n <? 192)%N then 0%nat
  else if (n <? 240)%N then 1%nat
  else 2%nat.

Fixpoint utf16_length (s : string) : nat :=
  match s with
  | EmptyString => 0%nat
  | String c s' => (utf16_units c + utf16_length s')%nat
  end.

(** [Math.ceil(a / b)] for integers [a] and [b > 0]. *)
Definition ceil_div (a b : Z) : Z := - ((- a) / b).

End Js.

(** ** Rate limiter (middleware/rateLimit.ts) *)

Module RateLimit.

Record RateLimitStore := { count : Z; resetTime : Z }.

(** What the middleware does with the request. *)
Inductive outcome :=
| Next (limit remaining reset : Z)
    (** headers X-RateLimit-Limit / -Remaining / -Reset set, [next()] called *)
| TooMany (retryAfter limit reset : Z)
    (** 429 RATE_LIMIT_EXCEEDED with Retry-After, remaining '0' *).

Definition is_next (o : outcome) : bool :=
  match o with Next _ _ _ => true | TooMany _ _ _ => false end.

(** [c.req.header('x-forwarded-for') || c.req.header('x-real-ip') || 'unknown'] *)
Definition client_ip (x_forwarded_for x_real_ip : option string) : string :=
  Js.or_else (Js.or_undef x_forwarded_for x_real_ip) "unknown".

Definition rateLimiter (windowMs maxRequests : Z) (ip : string) (now : Z)
    (store : gmap string RateLimitStore) : outcome * gmap string RateLimitStore :=
  let fresh :=
    let entry := {| count := 1; resetTime := now + windowMs |} in
    (Next maxRequests (Z.max 0 (maxRequests - count entry)) (resetTime entry),
     <[ip := entry]> store) in
  match store !! ip with
  | None => fresh
  | Some entry =>
      if now >? resetTime entry then fresh
      else if count entry >=? maxRequests then
        (TooMany (Js.ceil_div (resetTime entry - now) 1000) maxRequests (resetTime entry),
         store)
      else
        let entry := {| count := count entry + 1; resetTime := resetTime entry |} in
        (Next maxRequests (Z.max 0 (maxRequests - count entry)) (resetTime entry),
         <[ip := entry]> store)
  end.

(** [cleanupRateLimitStore]: the loop over [store.entries()] deletes, one
    key at a time, the entries it finds stale. *)
Definition cleanupRateLimitStore (now : Z) (store : gmap string RateLimitStore)
    : gmap string RateLimitStore :=
  map_fold (fun ip entry acc =>
              if now >? resetTime entry + 60000 then delete ip acc else acc)
           store store.

(** A sequence of requests [(ip, now)] handled one after the other. *)
Fixpoint run (windowMs maxRequests : Z) (reqs : list (string * Z))
    (store : gmap string RateLimitStore)
    : list outcome * gmap string RateLimitStore :=
  match reqs with
  | [] => ([], store)
  | (ip, now) :: reqs' =>
      let '(o, store') := rateLimiter windowMs maxRequests ip now store in
      let '(os, store'') := run windowMs maxRequests reqs' store' in
      (o :: os, store'')
  end.

(** The condition under which a check opens a new window: no entry for
    the key, or [now > entry.resetTime]. *)
Definition window_over (store : gmap string RateLimitStore) (ip : string) (now : Z) : Prop :=
  match store !! ip with
  | None => True
  | Some entry => now > resetTime entry
  end.

(** Number of requests of [reqs] made under key [k]. *)
Definition hits (k : string) (reqs : list (string * Z)) : Z :=
  Z.of_nat (length (filter (fun r => r.1 = k) reqs)).

End RateLimit.

(** ** Request validation (types/maps.ts, over the Zod combinators) *)

Module Zod.

(** A request body after [c.req.json()]: a JSON value.  The fields of an
    object are an association list; a JavaScript object holds a key
    once, and [get] reads the first binding. *)
Inductive json :=
| JNull
| JBool (b : bool)
| JNum (q : Q)
| JStr (s : string)
| JArr (l : list json)
| JObj (fields : list (string * json)).

(** [data[key]]: [None] is [undefined]. *)
Fixpoint get (key : string) (fields : list (string * json)) : option json :=
  match fields with
  | [] => None
  | (k, v) :: fields' => if String.eqb k key then Some v else get key fields'
  end.

Inductive jstype := TUndefined | TNull | TBoolean | TNumber | TString | TArray | TObject.

Definition typeof (v : option json) : jstype :=
  match v with
  | None => TUndefined
  | Some JNull => TNull
  | Some (JBool _) => TBoolean
  | Some (JNum _) => TNumber
  | Some (JStr _) => TString
  | Some (JArr _) => TArray
  | Some (JObj _) => TObject
  end.

(** The message of an issue is the text given in the schema, or the
    library's own text for the issue, which is identified by its code. *)
Inductive code :=
| invalid_type (expected received : jstype)
| too_small (minimum : Q)
| too_big (maximum : Q).

Inductive zmessage := Custom (s : string) | Default (c : code).

Record issue := { path : list string; message : zmessage }.

(** A schema reads the value found at [path]: [inl] carries the issues
    of a failed parse, [inr] the parsed value. *)
Definition schema (A : Type) : Type := list string -> option json -> list issue + A.

Definition issues_of {A} (r : list issue + A) : list issue :=
  match r with inl errs => errs | inr _ => [] end.

(** A refinement of a value of type [A]: [Some m] when it is violated. *)
Definition check (A : Type) : Type := A -> option zmessage.

(** Every check is run; each violated one adds its issue. *)
Definition run_checks {A} (checks : list (check A)) (p : list string) (a : A)
    : list issue + A :=
  match omap (fun chk => chk a) checks with
  | [] => inr a
  | m :: ms => inl (map (fun m => {| path := p; message := m |}) (m :: ms))
  end.

(** [z.string()] followed by its checks *)
Definition z_string (checks : list (check string)) : schema string :=
  fun p v =>
    match v with
    | Some (JStr s) => run_checks checks p s
    | _ => inl [{| path := p; message := Default (invalid_type TString (typeof v)) |}]
    end.

(** [.min(n, msg)] and [.max(n, msg)] on a string: bounds on [s.length].
    The schemas use [.min] with 1 only, which asks for text that is not
    empty: text with a byte. *)
Definition min_length (n : nat) (msg : string) : check string :=
  fun s => if (String.length s <? n)%nat then Some (Custom msg) else None.
Definition max_length (n : nat) (msg : string) : check string :=
  fun s => if (n <? Js.utf16_length s)%nat then Some (Custom msg) else None.

(** [z.number()] followed by its checks *)
Definition z_number (checks : list (check Q)) : schema Q :=
  fun p v =>
    match v with
    | Some (JNum q) => run_checks checks p q
    | _ => inl [{| path := p; message := Default (invalid_type TNumber (typeof v)) |}]
    end.

(** [.min(m)] and [.max(m)] on a number, inclusive, with the library's text *)
Definition min_value (m : Q) : check Q :=
  fun q => if Qle_bool m q then None else Some (Default (too_small m)).
Definition max_value (m : Q) : check Q :=
  fun q => if Qle_bool q m then None else Some (Default (too_big m)).

(** [.optional()]: [undefined] passes as [undefined] *)
Definition z_optional {A} (inner : schema A) : schema (option A) :=
  fun p v =>
    match v with
    | None => inr None
    | Some _ => match inner p v with inl errs => inl errs | inr a => inr (Some a) end
    end.

(** [.optional().default(d)]: [undefined] is replaced by [d] before the
    inner schema runs, so the optional layer never sees [undefined] and
    the parsed value is always present. *)
Definition z_optional_default {A} (inner : schema A) (d : json) : schema A :=
  fun p v =>
    match v with
    | None => inner p (Some d)
    | Some _ => inner p v
    end.

(** [SearchPlacesRequest = z.infer<typeof SearchPlacesSchema>] *)
Record SearchPlacesRequest := {
  query : string;
  location : option string;
  radius : Q;
  type_ : option string
}.

(** The schemas of the keys of [SearchPlacesSchema] *)
Definition query_schema : schema string :=
  z_string [min_length 1 "Query is required"; max_length 500 "Query too long"].
Definition radius_schema : schema Q :=
  z_optional_default (z_number [min_value 1; max_value 50000]) (JNum 5000).
Definition text_schema : schema (option string) := z_optional (z_string []).

(** [SearchPlacesSchema.parse(body)]; [inl] is the thrown [ZodError].
    [z.object] wants an object, parses the keys of its shape in order,
    gathers the issues of all of them, and drops unknown keys. *)
Definition SearchPlacesSchema (body : option json) : list issue + SearchPlacesRequest :=
  match body with
  | Some (JObj fields) =>
      let q := query_schema ["query"] (get "query" fields) in
      let l := text_schema ["location"] (get "location" fields) in
      let r := radius_schema ["radius"] (get "radius" fields) in
      let t := text_schema ["type"] (get "type" fields) in
      match q, l, r, t with
      | inr q, inr l, inr r, inr t =>
          inr {| query := q; location := l; radius := r; type_ := t |}
      | _, _, _, _ => inl (issues_of q ++ issues_of l ++ issues_of r ++ issues_of t)%list
      end
  | _ => inl [{| path := []; message := Default (invalid_type TObject (typeof body)) |}]
  end.

End Zod.

(** ** Response envelope and error handler (middleware/errorHandler.ts) *)

Module Http.

Record Detail := { path : string; detail_message : Zod.zmessage }.

(** [ErrorResponse] of types/maps.ts, with the [details] the error
    handler adds for validation failures. *)
Record ErrorResponse := {
  error : string;
  message : string;
  statusCode : Z;
  details : option (list Detail)
}.

(** [c.json({ success, error }, status)] *)
Record Reply := { status : Z; success : bool; body : ErrorResponse }.

Definition fail (kind msg : string) (code : Z) (ds : option (list Detail)) : Reply :=
  {| status := code; success := false;
     body := {| error := kind; message := msg; statusCode := code; details := ds |} |}.

(** A thrown value: [zod_issues] is [Some] exactly for an instance of
    [ZodError]; [err_message] is [err.message]. *)
Record JsError := { zod_issues : option (list Zod.issue); err_message : string }.

(** [new Error(msg)] *)
Definition Error (msg : string) : JsError := {| zod_issues := None; err_message := msg |}.

(** [path.join('.')] *)
Fixpoint join (sep : string) (l : list string) : string :=
  match l with
  | [] => ""
  | [x] => x
  | x :: l' => x ++ sep ++ join sep l'
  end.

Definition errorHandler (err : JsError) : Reply :=
  match zod_issues err with
  | Some issues =>
      fail "VALIDATION_ERROR" "Invalid request parameters" 400
        (Some (map (fun e => {| path := join "." (Zod.path e);
                                detail_message := Zod.message e |}) issues))
  | None =>
      if Js.includes "Google Maps API error" (err_message err) then
        fail "GOOGLE_MAPS_ERROR" (err_message err) 502 None
      else
        fail "INTERNAL_SERVER_ERROR" "An unexpected error occurred" 500 None
  end.

End Http.

(** ** API key gate (middleware/auth.ts) *)

Module Auth.

Inductive result :=
| PassThrough                       (** [await next()] *)
| Rejected (r : Http.Reply).

(** The constant [apiKey] of the middleware:
    [authHeader?.replace('Bearer ', '') || c.req.query('api_key')] *)
Definition provided_key (authHeader query_api_key : option string) : option string :=
  Js.or_undef (Js.replace_first "Bearer " "" <$> authHeader) query_api_key.

(** [API_KEY] is [env.API_KEY]; [authHeader] is
    [c.req.header('Authorization')]; [query_api_key] is
    [c.req.query('api_key')]. *)
Definition apiKeyAuth (API_KEY authHeader query_api_key : option string) : result :=
  if negb (Js.truthy_opt API_KEY) then PassThrough
  else
    let apiKey := provided_key authHeader query_api_key in
    if negb (Js.truthy_opt apiKey) then
      Rejected (Http.fail "UNAUTHORIZED"
        "API key is required. Provide it in Authorization header or api_key query parameter."
        401 None)
    else if negb (bool_decide (apiKey = API_KEY)) then
      Rejected (Http.fail "FORBIDDEN" "Invalid API key." 403 None)
    else PassThrough.

End Auth.

(** ** Google Maps service (services/googleMaps.ts) *)

Module Maps.

(** *** [encodeURIComponent]

    Every unit is escaped as [%XX] (upper-case hexadecimal) except the
    letters, the digits and [- _ . ! ~ * ' ( )].  For a unit above 127
    the unit is read as one byte of the UTF-8 form of the text. *)

Definition is_alpha (c : ascii) : bool :=
  let n := N_of_ascii c in
  ((65 <=? n) && (n <=? 90) || (97 <=? n) && (n <=? 122))%N.

Definition is_digit (c : ascii) : bool :=
  let n := N_of_ascii c in ((48 <=? n) && (n <=? 57))%N.

Definition elem_of_string (c : ascii) (s : string) : bool :=
  existsb (Ascii.eqb c) (list_ascii_of_string s).

Definition is_uri_unescaped (c : ascii) : bool :=
  is_alpha c || is_digit c || elem_of_string c "-_.!~*'()".

Definition hex_digit (n : N) : ascii :=
  match String.get (N.to_nat n) "0123456789ABCDEF" with
  | Some c => c
  | None => "0"%char
  end.

Definition percent_escape (c : ascii) : string :=
  let n := N_of_ascii c in
  String "%" (String (hex_digit (n / 16)) (String (hex_digit (n mod 16)) "")).

Fixpoint encodeURIComponent (s : string) : string :=
  match s with
  | EmptyString => EmptyString
  | String c s' =>
      (if is_uri_unescaped c then String c "" else percent_escape c)
      ++ encodeURIComponent s'
  end.

(** *** [s.replace(/<[^>]*>/g, '')]

    The regular expression matches at a ['<'] that has a ['>'] somewhere
    after it, and the match runs to the first such ['>'].  Matches are
    taken from the left, do not overlap, and each is replaced by the
    empty string. *)

(** The text after the first ['>'] of [s], when there is one. *)
Fixpoint after_gt (s : string) : option string :=
  match s with
  | EmptyString => None
  | String c s' => if Ascii.eqb c ">" then Some s' else after_gt s'
  end.

(** Matching on [inspect x] keeps the equation between [x] and the pattern. *)
Definition inspect {A : Type} (x : A) : { y : A | x = y } := exist _ x eq_refl.

Equations strip_tags (s : string) : string by wf (String.length s) lt :=
  strip_tags EmptyString := EmptyString;
  strip_tags (String c s') with Ascii.eqb c "<" := {
    | false := String c (strip_tags s');
    | true with inspect (after_gt s') := {
        | exist _ (Some rest) Hrest := strip_tags rest;
        | exist _ None _ := String c (strip_tags s') } }.
Next Obligation.
  clear strip_tags. simpl.
  enough (String.length rest < String.length s')%nat by lia.
  revert rest Hrest. induction s' as [|d s' IH]; intros rest; simpl; [discriminate|].
  destruct (Ascii.eqb d ">").
  - intros [= ->]. lia.
  - intros H. specialize (IH _ H). lia.
Qed.

(** Markup in which every ['<'] opens a tag that a later ['>'] closes
    and no ['>'] stands outside a tag.  [in_tag] tells whether the text
    read so far ends inside a tag. *)
Fixpoint markup_ok (in_tag : bool) (s : string) : bool :=
  match s with
  | EmptyString => negb in_tag
  | String c s' =>
      if in_tag then markup_ok (negb (Ascii.eqb c ">")) s'
      else if Ascii.eqb c ">" then false
      else markup_ok (Ascii.eqb c "<") s'
  end.

(** *** Provider payloads *)

(** A coordinate as the provider client hands it over: absent, a plain
    number, or a zero-argument accessor.  An accessor is known by the
    number it returns when called and by its source text, which is what
    JavaScript yields when a function is converted to a string. *)
Inductive coord :=
| CUndefined
| CNumber (n : Q)
| CAccessor (source : string) (returns : Q).

Record LatLng := { lat : coord; lng : coord }.
Record Geometry := { location : option LatLng }.
Record Photo := { photo_reference : string }.
Record OpeningHours := { open_now : option bool; weekday_text : option (list string) }.

(** [time] is the number sent by the provider; [Number(review.time)]
    leaves a number as it is. *)
Record PlaceReview := {
  author_name : string;
  review_rating : Q;
  review_text : string;
  time : Q
}.

Record Place := {
  place_id : option string;
  name : option string;
  formatted_address : option string;
  vicinity : option string;
  geometry : option Geometry;
  rating : option Q;
  user_ratings_total : option Q;
  types : option (list string);
  business_status : option string;
  price_level : option Q;
  photos : option (list Photo);
  formatted_phone_number : option string;
  website : option string;
  opening_hours : option OpeningHours;
  reviews : option (list PlaceReview)
}.

Record PlacesResponse := { places_status : string; results : list Place }.
Record PlaceDetailsResponse := { details_status : string; result : Place }.

Record TextValue := { tv_text : string; tv_value : Q }.
Record Step := {
  html_instructions : string;
  step_distance : TextValue;
  step_duration : TextValue
}.
Record Leg := {
  leg_distance : TextValue;
  leg_duration : TextValue;
  start_address : string;
  end_address : string;
  steps : list Step
}.
Record Route := { route_summary : string; legs : list Leg }.
Record DirectionsResponse := { directions_status : string; routes : list Route }.

(** *** Normalised results (types/maps.ts) *)

Record PlaceResult := {
  placeId : option string;
  pr_name : string;
  address : string;
  pr_location : option Q * option Q;
  pr_rating : option Q;
  userRatingsTotal : option Q;
  pr_types : option (list string);
  businessStatus : option string;
  priceLevel : option Q;
  photoUrl : option string;
  googleMapsUrl : string;
  embedMapUrl : string
}.

Record Review := { authorName : string; rv_rating : Q; rv_text : string; rv_time : Q }.

Record PlaceDetails := {
  basicInfo : PlaceResult;
  phoneNumber : option string;
  pd_website : option string;
  openingHours : option OpeningHours;
  pd_reviews : option (list Review)
}.

Record DirectionsStep := { instruction : string; ds_distance : string; ds_duration : string }.

Record DirectionsResult := {
  summary : string;
  distance : TextValue;
  duration : TextValue;
  startAddress : string;
  endAddress : string;
  dr_steps : list DirectionsStep;
  dr_googleMapsUrl : string;
  dr_embedMapUrl : string
}.

Record GetDirectionsRequest := { origin : string; destination : string; mode : string }.

(** [typeof c === 'function' ? c() : c] *)
Definition coord_value (c : coord) : option Q :=
  match c with
  | CUndefined => None
  | CNumber n => Some n
  | CAccessor _ r => Some r
  end.

(** [typeof c === 'function'] *)
Definition is_accessor (c : coord) : bool :=
  match c with CAccessor _ _ => true | _ => false end.

(** A possibly undefined string inside a template literal *)
Definition tpl (o : option string) : string :=
  match o with Some s => s | None => "undefined" end.

(** The message of the [TypeError] raised by reading property [prop] of
    [undefined] (the engine's wording). *)
Definition TypeError_undefined (prop : string) : Http.JsError :=
  Http.Error ("Cannot read properties of undefined (reading '" ++ prop ++ "')").

Section Service.

(** [this.apiKey], set from [env.GOOGLE_MAPS_API_KEY] *)
Variable apiKey : string.
(** How a template literal prints a number *)
Variable number_to_string : Q -> string.

(** A coordinate inside a template literal *)
Definition coord_text (c : coord) : string :=
  match c with
  | CUndefined => "undefined"
  | CNumber n => number_to_string n
  | CAccessor source _ => source
  end.

Definition generatePlaceUrl (placeId : option string) : string :=
  "https://www.google.com/maps/place/?q=place_id:" ++ tpl placeId.

Definition generateEmbedMapUrl (lat lng : coord) (placeId : option string) : string :=
  let query :=
    if Js.truthy_opt placeId then "place_id:" ++ tpl placeId
    else coord_text lat ++ "," ++ coord_text lng in
  "https://www.google.com/maps/embed/v1/place?key=" ++ apiKey ++ "&q="
    ++ encodeURIComponent query.

Definition generateDirectionsUrl (origin destination mode : string) : string :=
  let modeParam := if Js.truthy mode then "&travelmode=" ++ mode else "" in
  "https://www.google.com/maps/dir/?api=1&origin=" ++ encodeURIComponent origin
    ++ "&destination=" ++ encodeURIComponent destination ++ modeParam.

Definition generateEmbedDirectionsUrl (origin destination mode : string) : string :=
  let modeParam := if Js.truthy mode then "&mode=" ++ mode else "" in
  "https://www.google.com/maps/embed/v1/directions?key=" ++ apiKey
    ++ "&origin=" ++ encodeURIComponent origin
    ++ "&destination=" ++ encodeURIComponent destination ++ modeParam.

Definition generatePhotoUrl (photoReference : string) : string :=
  "https://maps.googleapis.com/maps/api/place/photo?maxwidth=400&photo_reference="
    ++ photoReference ++ "&key=" ++ apiKey.

Definition formatPlaceResult (place : Place) : PlaceResult :=
  let placeId := place_id place in
  let loc := geometry place ≫= location in
  let lat := from_option lat CUndefined loc in
  let lng := from_option lng CUndefined loc in
  {| placeId := placeId;
     pr_name := Js.or_else (name place) "Unknown";
     address := Js.or_else (Js.or_undef (formatted_address place) (vicinity place))
                  "Address not available";
     pr_location := (coord_value lat, coord_value lng);
     pr_rating := rating place;
     userRatingsTotal := user_ratings_total place;
     pr_types := types place;
     businessStatus := business_status place;
     priceLevel := price_level place;
     photoUrl :=
       match photos place ≫= head with
       | Some photo => Some (generatePhotoUrl (photo_reference photo))
       | None => None
       end;
     googleMapsUrl := generatePlaceUrl placeId;
     embedMapUrl := generateEmbedMapUrl lat lng placeId |}.

(** The status test shared by the four operations, and the error thrown *)
Definition api_error (status : string) : Http.JsError :=
  Http.Error ("Google Maps API error: " ++ status).

(** In each operation [call] is what awaiting the provider client gave:
    [inl] when the call threw, [inr] with the response otherwise.  The
    [catch] block logs and throws the same error again. *)

Definition searchPlaces (call : Http.JsError + PlacesResponse)
    : Http.JsError + list PlaceResult :=
  match call with
  | inl error => inl error
  | inr response =>
      if negb (String.eqb (places_status response) "OK")
         && negb (String.eqb (places_status response) "ZERO_RESULTS")
      then inl (api_error (places_status response))
      else inr (map formatPlaceResult (results response))
  end.

Definition getNearbyPlaces (call : Http.JsError + PlacesResponse)
    : Http.JsError + list PlaceResult :=
  match call with
  | inl error => inl error
  | inr response =>
      if negb (String.eqb (places_status response) "OK")
         && negb (String.eqb (places_status response) "ZERO_RESULTS")
      then inl (api_error (places_status response))
      else inr (map formatPlaceResult (results response))
  end.

Definition formatReview (review : PlaceReview) : Review :=
  {| authorName := author_name review;
     rv_rating := review_rating review;
     rv_text := review_text review;
     rv_time := time review |}.

Definition getPlaceDetails (call : Http.JsError + PlaceDetailsResponse)
    : Http.JsError + PlaceDetails :=
  match call with
  | inl error => inl error
  | inr response =>
      if negb (String.eqb (details_status response) "OK")
      then inl (api_error (details_status response))
      else
        let place := result response in
        inr {| basicInfo := formatPlaceResult place;
               phoneNumber := formatted_phone_number place;
               pd_website := website place;
               openingHours := opening_hours place;
               pd_reviews := (fun rs => map formatReview (take 5 rs)) <$> reviews place |}
  end.

Definition formatStep (step : Step) : DirectionsStep :=
  {| instruction := strip_tags (html_instructions step);
     ds_distance := tv_text (step_distance step);
     ds_duration := tv_text (step_duration step) |}.

Definition getDirections (params : GetDirectionsRequest)
    (call : Http.JsError + DirectionsResponse) : Http.JsError + DirectionsResult :=
  match call with
  | inl error => inl error
  | inr response =>
      if negb (String.eqb (directions_status response) "OK")
      then inl (api_error (directions_status response))
      else
        match routes response with
        | [] => inl (TypeError_undefined "legs")
        | route :: _ =>
            match legs route with
            | [] => inl (TypeError_undefined "distance")
            | leg :: _ =>
                inr {| summary := route_summary route;
                       distance := leg_distance leg;
                       duration := leg_duration leg;
                       startAddress := start_address leg;
                       endAddress := end_address leg;
                       dr_steps := map formatStep (steps leg);
                       dr_googleMapsUrl :=
                         generateDirectionsUrl (origin params) (destination params)
                           (mode params);
                       dr_embedMapUrl :=
                         generateEmbedDirectionsUrl (origin params) (destination params)
                           (mode params) |}
            end
        end
  end.

End Service.

End Maps.

(** ** Syntax of URLs

    What it takes for a string to be a syntactically valid [https] URL,
    after RFC 3986: the scheme, a host that is not empty, and then
    nothing but characters allowed in a path or a query
    (unreserved characters, sub-delimiters, [:], [@], [/], [?]) and
    complete percent escapes [%XX].  A fragment is not considered. *)

Module Url.

Definition is_hex (c : ascii) : bool :=
  Maps.is_digit c || Maps.elem_of_string c "ABCDEFabcdef".

Definition is_unreserved (c : ascii) : bool :=
  Maps.is_alpha c || Maps.is_digit c || Maps.elem_of_string c "-._~".

Definition is_sub_delim (c : ascii) : bool := Maps.elem_of_string c "!$&'()*+,;=".

Definition is_url_char (c : ascii) : bool :=
  is_unreserved c || is_sub_delim c || Maps.elem_of_string c ":@/?".

(** Allowed characters and complete percent escapes only *)
Fixpoint chars_ok (s : string) : bool :=
  match s with
  | EmptyString => true
  | String c s' =>
      if Ascii.eqb c "%" then
        match s' with
        | String h1 (String h2 s'') => is_hex h1 && is_hex h2 && chars_ok s''
        | _ => false
        end
      else is_url_char c && chars_ok s'
  end.

Definition is_valid_url (s : string) : bool :=
  String.prefix "https://" s &&
  match Js.drop 8 s with
  | EmptyString => false
  | String c rest => (is_unreserved c || is_hex c) && chars_ok (String c rest)
  end.

End Url.

(** ** The other request schemas (types/maps.ts) *)

Module Schemas.
Import Zod.

(** [GetPlaceDetailsRequest] *)
Record GetPlaceDetailsRequest := { placeId : string }.

(** [GetPlaceDetailsSchema.parse(body)] *)
Definition GetPlaceDetailsSchema (body : option json) : list issue + GetPlaceDetailsRequest :=
  match body with
  | Some (JObj fields) =>
      match z_string [min_length 1 "Place ID is required"] ["placeId"]
              (get "placeId" fields) with
      | inr p => inr {| placeId := p |}
      | inl errs => inl errs
      end
  | _ => inl [{| path := []; message := Default (invalid_type TObject (typeof body)) |}]
  end.

(** [GetNearbyPlacesRequest] *)
Record GetNearbyPlacesRequest := {
  location : string;
  radius : Q;
  type_ : option string;
  keyword : option string
}.

(** [GetNearbyPlacesSchema.parse(body)] *)
Definition GetNearbyPlacesSchema (body : option json) : list issue + GetNearbyPlacesRequest :=
  match body with
  | Some (JObj fields) =>
      let l := z_string [min_length 1 "Location is required"] ["location"]
                 (get "location" fields) in
      let r := z_optional_default (z_number [min_value 1; max_value 50000]) (JNum 1500)
                 ["radius"] (get "radius" fields) in
      let t := text_schema ["type"] (get "type" fields) in
      let k := text_schema ["keyword"] (get "keyword" fields) in
      match l, r, t, k with
      | inr l, inr r, inr t, inr k =>
          inr {| location := l; radius := r; type_ := t; keyword := k |}
      | _, _, _, _ => inl (issues_of l ++ issues_of r ++ issues_of t ++ issues_of k)%list
      end
  | _ => inl [{| path := []; message := Default (invalid_type TObject (typeof body)) |}]
  end.

End Schemas.

(** ** What the service sends to the provider (services/googleMaps.ts) *)

Module Outbound.

(** Truthiness of a number: zero is falsy. *)
Definition truthy_num (q : Q) : bool := negb (Qeq_bool q 0).

(** [...(v && { key: v })] for a string that may be [undefined]: the key
    is set only for a non-empty string. *)
Definition spread (v : option string) : option string :=
  if Js.truthy_opt v then v else None.

(** The [params] of [client.textSearch] *)
Record TextSearchParams := {
  ts_query : string;
  ts_key : string;
  ts_location : option string;
  ts_radius : option Q;
  ts_type : option string
}.

Definition textSearch_params (apiKey : string) (params : Zod.SearchPlacesRequest)
    : TextSearchParams :=
  {| ts_query := Zod.query params;
     ts_key := apiKey;
     ts_location := spread (Zod.location params);
     ts_radius := if truthy_num (Zod.radius params) then Some (Zod.radius params) else None;
     ts_type := spread (Zod.type_ params) |}.

(** The [params] of [client.placesNearby] *)
Record PlacesNearbyParams := {
  pn_location : string;
  pn_radius : Q;
  pn_key : string;
  pn_type : option string;
  pn_keyword : option string
}.

Definition placesNearby_params (apiKey : string) (params : Schemas.GetNearbyPlacesRequest)
    : PlacesNearbyParams :=
  {| pn_location := Schemas.location params;
     pn_radius := Schemas.radius params;
     pn_key := apiKey;
     pn_type := spread (Schemas.type_ params);
     pn_keyword := spread (Schemas.keyword params) |}.

(** The [params] of [client.directions]:
    [mode: params.mode || TravelMode.driving] *)
Record DirectionsParams := {
  dp_origin : string;
  dp_destination : string;
  dp_mode : string;
  dp_key : string
}.

Definition directions_params (apiKey : string) (params : Maps.GetDirectionsRequest)
    : DirectionsParams :=
  {| dp_origin := Maps.origin params;
     dp_destination := Maps.destination params;
     dp_mode := Js.or_else (Some (Maps.mode params)) "driving";
     dp_key := apiKey |}.

(** The [params] of [client.placeDetails], with the list of fields asked for *)
Record PlaceDetailsParams := {
  pd_place_id : string;
  pd_key : string;
  pd_fields : list string
}.

Definition placeDetails_params (apiKey : string) (params : Schemas.GetPlaceDetailsRequest)
    : PlaceDetailsParams :=
  {| pd_place_id := Schemas.placeId params;
     pd_key := apiKey;
     pd_fields :=
       ["place_id"; "name"; "formatted_address"; "geometry"; "rating";
        "user_ratings_total"; "price_level"; "types"; "business_status";
        "formatted_phone_number"; "website"; "opening_hours"; "reviews"; "photos"] |}.

End Outbound.

(** ** Route handlers (routes/maps.ts) and the middleware chain (index.ts) *)

Module Routes.

(** What a handler answers: [c.json({ success: true, data })] with
    status 200, or the reply of the error handler for a thrown error. *)
Inductive response (D : Type) :=
| Success (data : D)
| Failure (r : Http.Reply).
Arguments Success {D} _.
Arguments Failure {D} _.

Definition status_of {D} (r : response D) : Z :=
  match r with Success _ => 200 | Failure r => Http.status r end.

Section Handlers.

(** The text a [ZodError] carries as its [message] *)
Variable zod_text : list Zod.issue -> string.

Definition ZodError (issues : list Zod.issue) : Http.JsError :=
  {| Http.zod_issues := Some issues; Http.err_message := zod_text issues |}.

(** The shape shared by the four POST handlers: read the JSON body,
    parse it with the schema, call the service, wrap the result; what
    is thrown on the way goes to [app.onError(errorHandler)].  [body] is
    what [c.req.json()] gave: [inl] when it threw. *)
Definition handler {Req D : Type} (schema : option Zod.json -> list Zod.issue + Req)
    (service : Req -> Http.JsError + D) (body : Http.JsError + Zod.json) : response D :=
  match body with
  | inl error => Failure (Http.errorHandler error)
  | inr json =>
      match schema (Some json) with
      | inl issues => Failure (Http.errorHandler (ZodError issues))
      | inr validated =>
          match service validated with
          | inl error => Failure (Http.errorHandler error)
          | inr data => Success data
          end
      end
  end.

Variable apiKey : string.
Variable number_to_string : Q -> string.

(** [maps.post('/search-places', ...)]; [client] is the provider client's
    [textSearch] *)
Definition search_places
    (client : Outbound.TextSearchParams -> Http.JsError + Maps.PlacesResponse)
    : Http.JsError + Zod.json -> response (list Maps.PlaceResult) :=
  handler Zod.SearchPlacesSchema
    (fun validated =>
       Maps.searchPlaces apiKey number_to_string
         (client (Outbound.textSearch_params apiKey validated))).

(** [maps.post('/nearby-places', ...)] *)
Definition nearby_places
    (client : Outbound.PlacesNearbyParams -> Http.JsError + Maps.PlacesResponse)
    : Http.JsError + Zod.json -> response (list Maps.PlaceResult) :=
  handler Schemas.GetNearbyPlacesSchema
    (fun validated =>
       Maps.getNearbyPlaces apiKey number_to_string
         (client (Outbound.placesNearby_params apiKey validated))).

(** [maps.post('/place-details', ...)] *)
Definition place_details
    (client : Outbound.PlaceDetailsParams -> Http.JsError + Maps.PlaceDetailsResponse)
    : Http.JsError + Zod.json -> response Maps.PlaceDetails :=
  handler Schemas.GetPlaceDetailsSchema
    (fun validated =>
       Maps.getPlaceDetails apiKey number_to_string
         (client (Outbound.placeDetails_params apiKey validated))).

End Handlers.

(** [s.endsWith(suffix)] *)
Definition endsWith (suffix s : string) : bool :=
  (String.length suffix <=? String.length s)%nat
  && String.eqb (Js.drop (String.length s - String.length suffix) s) suffix.

(** What a middleware that returns nothing leaves behind: either it has
    called [next()], or it has not and the context holds no response. *)
Inductive wrapper :=
| NextCalled
| NotFinalized.

(** The middleware on [/api/maps/*] of index.ts:
    [if (c.req.path.endsWith('/health')) { await next(); return; }
     await apiKeyAuth(c, next);]
    The health check skips the key.  The wrapper awaits [apiKeyAuth]
    and returns nothing, so the response that [apiKeyAuth] returns when
    it rejects is dropped. *)
Definition auth_unless_health (API_KEY : option string) (path : string)
    (authHeader query_api_key : option string) : wrapper :=
  if endsWith "/health" path then NextCalled
  else
    match Auth.apiKeyAuth API_KEY authHeader query_api_key with
    | Auth.PassThrough => NextCalled
    | Auth.Rejected _ => NotFinalized
    end.

(** The error Hono throws when the middleware chain ends and the
    context holds no response; it goes to [app.onError(errorHandler)]. *)
Definition not_finalized : Http.JsError :=
  Http.Error
    "Context is not finalized. Did you forget to return a Response object or `await next()`?".

(** The reply of the rate limiter when it refuses *)
Definition too_many_requests : Http.Reply :=
  Http.fail "RATE_LIMIT_EXCEEDED" "Too many requests. Please try again later." 429 None.

Inductive gate :=
| Routed       (** both middlewares called [next()] *)
| Refused (r : Http.Reply).

(** A request under [/api/maps/]: [app.use('/api/*', rateLimiter)] runs
    first, and only its [next()] reaches the middleware of
    [/api/maps/*].  The limiter returns its 429 response itself; a
    rejection of the key gate leaves the context without a response,
    and the client gets the answer of [errorHandler] to
    [not_finalized]. *)
Definition api_maps_gate (windowMs maxRequests : Z) (API_KEY : option string)
    (ip : string) (now : Z) (path : string) (authHeader query_api_key : option string)
    (store : gmap string RateLimit.RateLimitStore)
    : gate * gmap string RateLimit.RateLimitStore :=
  let '(o, store') := RateLimit.rateLimiter windowMs maxRequests ip now store in
  match o with
  | RateLimit.TooMany _ _ _ => (Refused too_many_requests, store')
  | RateLimit.Next _ _ _ =>
      match auth_unless_health API_KEY path authHeader query_api_key with
      | NextCalled => (Routed, store')
      | NotFinalized => (Refused (Http.errorHandler not_finalized), store')
      end
  end.

End Routes.

(** ** Counting what a run of checks lets through *)

Module Tally.

(** The number of requests of [reqs] under key [k] that were answered
    with [next()], [outs] being the answers in the order of [reqs]. *)
Definition admitted (k : string) (reqs : list (string * Z)) (outs : list RateLimit.outcome)
    : Z :=
  Z.of_nat (length (filter (fun ro => ro.1.1 = k /\ RateLimit.is_next ro.2 = true)
                           (zip reqs outs))).

(** The bounds every stored entry keeps *)
Definition entry_ok (maxRequests : Z) (e : RateLimit.RateLimitStore) : Prop :=
  1 <= RateLimit.count e <= Z.max 1 maxRequests.

(** [s'] is [s] without some entries that expired before [t]. *)
Definition pruned (t : Z) (s' s : gmap string RateLimit.RateLimitStore) : Prop :=
  forall k, s' !! k = s !! k \/
            (s' !! k = None /\
             exists e, s !! k = Some e /\ RateLimit.resetTime e < t).

End Tally.

(** * Properties *)

(** ** Rate limiter *)

Section RateLimitFacts.
Import RateLimit.
Variables (windowMs maxRequests : Z) (k : string).

Let limiter := rateLimiter windowMs maxRequests.

Lemma ceil_div_bounds (a : Z) :
  1000 * (Js.ceil_div a 1000 - 1) < a <= 1000 * Js.ceil_div a 1000.
Proof.
  unfold Js.ceil_div.
  pose proof (Z.div_mod (- a) 1000 ltac:(lia)).
  pose proof (Z.mod_pos_bound (- a) 1000 ltac:(lia)).
  lia.
Qed.

Lemma rateLimiter_other (ip : string) (now : Z) (s : gmap string RateLimitStore) :
  ip ≠ k -> (limiter ip now s).2 !! k = s !! k.
Proof.
  intros Hne. unfold limiter, rateLimiter.
  destruct (s !! ip) as [e|]; simpl.
  - destruct (now >? resetTime e); simpl; [by rewrite lookup_insert_ne|].
    destruct (count e >=? maxRequests); simpl; [done|by rewrite lookup_insert_ne].
  - by rewrite lookup_insert_ne.
Qed.

Lemma rateLimiter_fresh (now : Z) (s : gmap string RateLimitStore) :
  window_over s k now ->
  limiter k now s =
    (Next maxRequests (Z.max 0 (maxRequests - 1)) (now + windowMs),
     <[k := {| count := 1; resetTime := now + windowMs |}]> s).
Proof.
  unfold window_over, limiter, rateLimiter.
  destruct (s !! k) as [e|]; [|done].
  intros H. by destruct (Z.gtb_spec now (resetTime e)); [|lia].
Qed.

Lemma rateLimiter_counts (now : Z) (s : gmap string RateLimitStore) (e : RateLimitStore) :
  s !! k = Some e -> now <= resetTime e -> count e < maxRequests ->
  limiter k now s =
    (Next maxRequests (Z.max 0 (maxRequests - (count e + 1))) (resetTime e),
     <[k := {| count := count e + 1; resetTime := resetTime e |}]> s).
Proof.
  intros Hk Hnow Hc. unfold limiter, rateLimiter. rewrite Hk.
  destruct (Z.gtb_spec now (resetTime e)); [lia|].
  destruct (Z.geb_spec (count e) maxRequests); [lia|done].
Qed.

Lemma rateLimiter_denies (now : Z) (s : gmap string RateLimitStore) (e : RateLimitStore) :
  s !! k = Some e -> now <= resetTime e -> maxRequests <= count e ->
  limiter k now s =
    (TooMany (Js.ceil_div (resetTime e - now) 1000) maxRequests (resetTime e), s).
Proof.
  intros Hk Hnow Hc. unfold limiter, rateLimiter. rewrite Hk.
  destruct (Z.gtb_spec now (resetTime e)); [lia|].
  destruct (Z.geb_spec (count e) maxRequests); [done|lia].
Qed.

Lemma hits_cons (r : string * Z) (reqs : list (string * Z)) :
  hits k (r :: reqs) = (if decide (r.1 = k) then 1 else 0) + hits k reqs.
Proof.
  unfold hits. rewrite filter_cons. destruct (decide (r.1 = k)); simpl length; lia.
Qed.

Lemma hits_nonneg (reqs : list (string * Z)) : 0 <= hits k reqs.
Proof. unfold hits. lia. Qed.

(** While the quota is not used up, every request on [k] inside the
    window is let through and counted once; requests on other keys leave
    the entry of [k] alone. *)
Lemma run_inside_window (reqs : list (string * Z)) :
  forall (s : gmap string RateLimitStore) (c R : Z),
    s !! k = Some {| count := c; resetTime := R |} ->
    Forall (fun r => r.1 = k -> r.2 <= R) reqs ->
    c + hits k reqs <= maxRequests ->
    exists outs s',
      run windowMs maxRequests reqs s = (outs, s') /\
      Forall2 (fun r o => r.1 = k -> is_next o = true) reqs outs /\
      s' !! k = Some {| count := c + hits k reqs; resetTime := R |}.
Proof.
  induction reqs as [|[ip now] reqs IH]; intros s c R Hk Hin Hc.
  - exists [], s. repeat split; [constructor|].
    rewrite Hk. unfold hits. simpl. do 2 f_equal. lia.
  - rewrite hits_cons in Hc. rewrite hits_cons. simpl in Hc |- *.
    apply Forall_cons in Hin as [Hnow Hin]. simpl in Hnow.
    pose proof (hits_nonneg reqs) as Hpos.
    destruct (decide (ip = k)) as [->|Hne].
    + pose proof (rateLimiter_counts now s _ Hk (Hnow eq_refl) ltac:(simpl; lia)) as Hstep.
      unfold limiter in Hstep. rewrite Hstep. simpl.
      destruct (IH (<[k:={| count := c + 1; resetTime := R |}]> s) (c + 1) R)
        as (outs & s' & Hrun & Hall & Hk'); [by rewrite lookup_insert_eq|done|lia|].
      rewrite Hrun. eexists _, s'. split; [done|]. split.
      * constructor; [done|done].
      * rewrite Hk'. do 2 f_equal. lia.
    + pose proof (rateLimiter_other ip now s Hne) as Hoth. unfold limiter in Hoth.
      destruct (rateLimiter windowMs maxRequests ip now s) as [o s1] eqn:Hstep.
      simpl in Hoth.
      destruct (IH s1 c R) as (outs & s' & Hrun & Hall & Hk');
        [by rewrite Hoth|done|lia|].
      rewrite Hrun. eexists _, s'. split; [done|]. split.
      * constructor; [simpl; congruence|done].
      * rewrite Hk'. do 2 f_equal.
Qed.

End RateLimitFacts.

(** C1 (as amended).  Take any store in which key [k] has no entry or an
    elapsed window.  A check on [k] at [t0], followed by any requests of
    which exactly [maxRequests - 1] are on [k], those at times not after
    [t0 + windowMs]: every one of these checks on [k] is let through, and
    the entry of [k] is then [maxRequests] with reset time [t0 + windowMs].
    From there a check on [k] at [now <= t0 + windowMs] is refused with
    [retryAfter = ceil((resetTime - now) / 1000)], it leaves the store as
    it is, and [retryAfter >= 0], with [retryAfter >= 1] when
    [now < resetTime]; a check at [now > t0 + windowMs] is let through and
    replaces the entry by count 1 and reset time [now + windowMs]. *)
Theorem rate_limit_window_cycle
    (windowMs maxRequests : Z) (k : string) (s : gmap string RateLimit.RateLimitStore)
    (t0 : Z) (rest : list (string * Z)) :
  1 <= maxRequests ->
  RateLimit.window_over s k t0 ->
  RateLimit.hits k rest = maxRequests - 1 ->
  Forall (fun r => r.1 = k -> r.2 <= t0 + windowMs) rest ->
  exists outs s',
    RateLimit.run windowMs maxRequests ((k, t0) :: rest) s = (outs, s') /\
    Forall2 (fun r o => r.1 = k -> RateLimit.is_next o = true) ((k, t0) :: rest) outs /\
    s' !! k = Some {| RateLimit.count := maxRequests;
                      RateLimit.resetTime := t0 + windowMs |} /\
    (forall now, now <= t0 + windowMs ->
       exists retryAfter,
         RateLimit.rateLimiter windowMs maxRequests k now s'
           = (RateLimit.TooMany retryAfter maxRequests (t0 + windowMs), s') /\
         retryAfter = Js.ceil_div (t0 + windowMs - now) 1000 /\
         1000 * (retryAfter - 1) < t0 + windowMs - now <= 1000 * retryAfter /\
         0 <= retryAfter /\
         (now < t0 + windowMs -> 1 <= retryAfter)) /\
    (forall now, t0 + windowMs < now ->
       RateLimit.rateLimiter windowMs maxRequests k now s'
         = (RateLimit.Next maxRequests (Z.max 0 (maxRequests - 1)) (now + windowMs),
            <[k := {| RateLimit.count := 1;
                      RateLimit.resetTime := now + windowMs |}]> s')).
Proof.
  intros Hmax Hfresh Hhits Hin.
  simpl. rewrite (rateLimiter_fresh windowMs maxRequests k t0 s Hfresh).
  destruct (run_inside_window windowMs maxRequests k rest
              (<[k:={| RateLimit.count := 1; RateLimit.resetTime := t0 + windowMs |}]> s)
              1 (t0 + windowMs))
    as (outs & s' & Hrun & Hall & Hk); [by rewrite lookup_insert_eq|done|lia|].
  rewrite Hrun. replace (1 + RateLimit.hits k rest) with maxRequests in Hk by lia.
  eexists _, s'. split; [done|]. split; [by constructor|]. split; [done|]. split.
  - intros now Hnow. eexists. split.
    + by apply (rateLimiter_denies windowMs maxRequests k now s' _ Hk); simpl.
    + simpl. pose proof (ceil_div_bounds (t0 + windowMs - now)). lia.
  - intros now Hnow.
    apply (rateLimiter_fresh windowMs maxRequests k now s').
    unfold RateLimit.window_over. rewrite Hk. simpl. lia.
Qed.

(** An instance: a quota of 2 per minute, one client served twice while another is served in between. *)
Lemma rate_limit_window_cycle_witness :
  1 <= 2 /\
  RateLimit.window_over ∅ "10.0.0.7" 0 /\
  RateLimit.hits "10.0.0.7" [("10.0.0.9", 5); ("10.0.0.7", 10)] = 2 - 1 /\
  exists outs s',
    RateLimit.run 60000 2 [("10.0.0.7", 0); ("10.0.0.9", 5); ("10.0.0.7", 10)] ∅
      = (outs, s') /\
    RateLimit.rateLimiter 60000 2 "10.0.0.7" 20 s'
      = (RateLimit.TooMany 60 2 60000, s') /\
    RateLimit.rateLimiter 60000 2 "10.0.0.7" 60001 s'
      = (RateLimit.Next 2 1 120001,
         <["10.0.0.7" := {| RateLimit.count := 1; RateLimit.resetTime := 120001 |}]> s').
Proof.
  assert (H1 : 1 <= 2) by lia.
  assert (H2 : RateLimit.window_over ∅ "10.0.0.7" 0) by (vm_compute; exact I).
  assert (H3 : RateLimit.hits "10.0.0.7" [("10.0.0.9", 5); ("10.0.0.7", 10)] = 2 - 1)
    by (vm_compute; reflexivity).
  assert (H4 : Forall (fun r : string * Z => r.1 = "10.0.0.7" -> r.2 <= 0 + 60000)
                 [("10.0.0.9", 5); ("10.0.0.7", 10)])
    by (repeat constructor; simpl; lia).
  split; [exact H1|]. split; [exact H2|]. split; [exact H3|].
  destruct (rate_limit_window_cycle 60000 2 "10.0.0.7" ∅ 0 _ H1 H2 H3 H4)
    as (outs & s' & Hrun & _ & _ & Hdeny & Hreset).
  exists outs, s'. split; [exact Hrun|]. split.
  - destruct (Hdeny 20 ltac:(lia)) as (r & Hr & -> & _). exact Hr.
  - exact (Hreset 60001 ltac:(lia)).
Defined.

(** C1, as stated, fails at the last millisecond of the window: with a
    quota of 2 per 60000 ms and two checks let through at 0 and 10, the
    check made at exactly [resetTime = 60000] is refused with
    [retryAfter = 0], which is not [>= 1]. *)
Lemma rate_limit_retry_after_zero :
  exists s',
    RateLimit.run 60000 2 [("10.0.0.7", 0); ("10.0.0.7", 10)] ∅
      = ([RateLimit.Next 2 1 60000; RateLimit.Next 2 0 60000], s') /\
    (RateLimit.rateLimiter 60000 2 "10.0.0.7" 60000 s').1
      = RateLimit.TooMany 0 2 60000 /\
    ~ (1 <= 0).
Proof.
  eexists. split; [vm_compute; reflexivity|]. split; [vm_compute; reflexivity|lia].
Qed.

(** ** Cleanup sweep *)

Lemma cleanup_fold (now : Z) (m b : gmap string RateLimit.RateLimitStore) (k : string) :
  map_fold (fun ip entry acc =>
              if now >? RateLimit.resetTime entry + 60000 then delete ip acc else acc)
           b m !! k
  = match m !! k with
    | Some e => if now >? RateLimit.resetTime e + 60000 then None else b !! k
    | None => b !! k
    end.
Proof.
  revert k.
  apply (map_fold_weak_ind
           (fun (r m : gmap string RateLimit.RateLimitStore) =>
              forall k : string,
                r !! k = match m !! k with
                         | Some e =>
                             if now >? RateLimit.resetTime e + 60000 then None else b !! k
                         | None => b !! k
                         end)).
  - intros k. by rewrite lookup_empty.
  - intros i x m' r Hi IH k.
    destruct (decide (i = k)) as [->|Hne].
    + rewrite lookup_insert_eq.
      destruct (now >? RateLimit.resetTime x + 60000).
      * by rewrite lookup_delete_eq.
      * by rewrite IH, Hi.
    + rewrite lookup_insert_ne by done.
      destruct (now >? RateLimit.resetTime x + 60000).
      * rewrite lookup_delete_ne by done. apply IH.
      * apply IH.
Qed.

(** C4 (as amended).  The sweep removes exactly the entries whose reset
    time lies more than 60000 ms before the sweep
    ([now > resetTime + 60000]), and keeps every other entry unchanged;
    the configured window length plays no part. *)
Theorem cleanup_removes_minute_old (now : Z)
    (store : gmap string RateLimit.RateLimitStore) (k : string) :
  RateLimit.cleanupRateLimitStore now store !! k
  = match store !! k with
    | Some e => if now >? RateLimit.resetTime e + 60000 then None else Some e
    | None => None
    end.
Proof.
  unfold RateLimit.cleanupRateLimitStore. rewrite cleanup_fold.
  by destruct (store !! k) as [e|] eqn:Hk.
Qed.

(** C4, as stated, fails when the window is not one minute: with
    [windowMs = 1000], an entry whose window ended at 1000 is more than
    one window in the past at 5000, and the sweep keeps it. *)
Lemma cleanup_keeps_entry_older_than_window :
  let windowMs := 1000 in
  let e := {| RateLimit.count := 1; RateLimit.resetTime := 1000 |} in
  let store : gmap string RateLimit.RateLimitStore := {["10.0.0.7" := e]} in
  (RateLimit.rateLimiter windowMs 100 "10.0.0.7" 0 ∅).2 !! "10.0.0.7" = Some e /\
  5000 > RateLimit.resetTime e + windowMs /\
  RateLimit.cleanupRateLimitStore 5000 store !! "10.0.0.7" = Some e.
Proof. vm_compute. repeat split; reflexivity. Qed.

(** ** String primitives *)

Section StringFacts.

Lemma string_app_cons (c : ascii) (a b : string) : String c a ++ b = String c (a ++ b).
Proof. reflexivity. Qed.

Lemma string_app_assoc (a b c : string) : (a ++ b) ++ c = a ++ b ++ c.
Proof.
  induction a as [|x a IH]; [done|]. rewrite !string_app_cons. by f_equal.
Qed.

Lemma string_app_length (a b : string) :
  String.length (a ++ b) = (String.length a + String.length b)%nat.
Proof.
  induction a as [|x a IH]; [done|]. rewrite string_app_cons. simpl. by f_equal.
Qed.

Lemma prefix_app (p s : string) : String.prefix p (p ++ s) = true.
Proof.
  induction p as [|c p IH]; simpl; [by destruct s|].
  destruct (ascii_dec c c); [done|congruence].
Qed.

Lemma drop_app (p s : string) : Js.drop (String.length p) (p ++ s) = s.
Proof. induction p as [|c p IH]; simpl; [by destruct s|done]. Qed.

Lemma prefix_empty (s : string) : String.prefix "" s = true.
Proof. by destruct s. Qed.



Lemma includes_prefix (p s : string) :
  String.prefix p s = true -> Js.includes p s = true.
Proof. intros H. destruct s; simpl in *; rewrite H; done. Qed.





End StringFacts.

(** ** API key gate *)

Section AuthFacts.
Import Auth.




End AuthFacts.





(** ** Markup stripping *)

Section StripFacts.
Import Maps.

Lemma strip_tags_cons (c : ascii) (s : string) :
  strip_tags (String c s) =
    if Ascii.eqb c "<" then
      match after_gt s with
      | Some rest => strip_tags rest
      | None => String c (strip_tags s)
      end
    else String c (strip_tags s).
Proof.
  simp strip_tags. destruct (Ascii.eqb c "<") eqn:Ec; simpl; [|done].
  by destruct (after_gt s).
Qed.

Lemma after_gt_length (s r : string) :
  after_gt s = Some r -> (String.length r < String.length s)%nat.
Proof.
  revert r. induction s as [|c s IH]; intros r; simpl; [discriminate|].
  destruct (Ascii.eqb c ">").
  - intros [= ->]. lia.
  - intros H. specialize (IH _ H). lia.
Qed.

Lemma includes_single (c d : ascii) (s : string) :
  Js.includes (String c "") (String d s)
  = Ascii.eqb d c || Js.includes (String c "") s.
Proof.
  simpl. destruct (ascii_dec c d) as [->|Hne].
  - by rewrite Ascii.eqb_refl, prefix_empty.
  - destruct (Ascii.eqb_spec d c); [congruence|done].
Qed.

(** Text without ['>'] holds no tag: it is returned as it is. *)
Lemma strip_tags_no_gt (s : string) : after_gt s = None -> strip_tags s = s.
Proof.
  induction s as [|c s IH]; [done|]. simpl. destruct (Ascii.eqb c ">"); [done|].
  intros H. rewrite strip_tags_cons, H, (IH H). by destruct (Ascii.eqb c "<").
Qed.

(** Text without ['<'] is returned as it is. *)
Lemma strip_tags_no_lt (s : string) : Js.includes "<" s = false -> strip_tags s = s.
Proof.
  induction s as [|c s IH]; [done|].
  rewrite includes_single. intros [Hc Hs]%orb_false_elim.
  rewrite strip_tags_cons, Hc. f_equal. by apply IH.
Qed.

Lemma after_gt_app (u c : string) : is_Some (after_gt (u ++ ">" ++ c)).
Proof.
  induction u as [|x u IH]; [by eexists|].
  rewrite string_app_cons. simpl. by destruct (Ascii.eqb x ">").
Qed.

(** What is left holds no ['<'] with a ['>'] after it. *)
Lemma strip_tags_no_tag (s : string) :
  forall a b c, strip_tags s <> a ++ "<" ++ b ++ ">" ++ c.
Proof.
  remember (String.length s) as n eqn:Hn. revert s Hn.
  induction n as [n IH] using lt_wf_ind. intros [|x s] Hn a b c.
  - simp strip_tags. by destruct a.
  - simpl in Hn. rewrite strip_tags_cons.
    destruct (Ascii.eqb_spec x "<") as [->|Hx].
    + destruct (after_gt s) as [rest|] eqn:Hgt.
      * apply (IH (String.length rest)); [|done].
        pose proof (after_gt_length _ _ Hgt). lia.
      * rewrite (strip_tags_no_gt s Hgt). intros E.
        assert (Hsome : is_Some (after_gt s)); [|rewrite Hgt in Hsome; by destruct Hsome].
        destruct a as [|y a].
        -- injection E as E. rewrite E. apply after_gt_app.
        -- injection E as E1 E2. rewrite E2. rewrite <- (string_app_assoc a "<" (b ++ ">" ++ c)).
           rewrite <- (string_app_assoc (a ++ "<") b (">" ++ c)). apply after_gt_app.
    + intros E. destruct a as [|y a]; injection E as E1 E2; [done|].
      by apply (IH (String.length s) ltac:(lia) s eq_refl a b c).
Qed.

Lemma markup_ok_in_tag (s : string) :
  markup_ok true s = true ->
  exists rest, after_gt s = Some rest /\ markup_ok false rest = true.
Proof.
  induction s as [|x s IH]; simpl; [done|].
  destruct (Ascii.eqb x ">"); simpl; [by eexists|done].
Qed.

(** Of well-formed markup nothing with an angle bracket is left. *)
Lemma strip_tags_markup_ok (s : string) :
  markup_ok false s = true ->
  Js.includes "<" (strip_tags s) = false /\ Js.includes ">" (strip_tags s) = false.
Proof.
  remember (String.length s) as n eqn:Hn. revert s Hn.
  induction n as [n IH] using lt_wf_ind. intros [|x s] Hn; [done|].
  simpl in Hn. simpl. rewrite strip_tags_cons.
  destruct (Ascii.eqb_spec x ">") as [->|Hgt]; [done|].
  destruct (Ascii.eqb_spec x "<") as [->|Hlt]; intros Hok.
  - destruct (markup_ok_in_tag s Hok) as (rest & Hrest & Hok'). rewrite Hrest.
    apply (IH (String.length rest)); [|done|done].
    pose proof (after_gt_length _ _ Hrest). lia.
  - rewrite !includes_single.
    destruct (IH (String.length s) ltac:(lia) s eq_refl Hok) as [-> ->].
    split; apply orb_false_intro; try done; by apply Ascii.eqb_neq.
Qed.

Lemma after_gt_first (b c : string) :
  Js.includes ">" b = false -> after_gt (b ++ ">" ++ c) = Some c.
Proof.
  induction b as [|x b IH]; [done|].
  rewrite includes_single, string_app_cons. intros [Hx Hb]%orb_false_elim.
  simpl. rewrite Hx. by apply IH.
Qed.

Lemma after_gt_absent (s : string) : Js.includes ">" s = false -> after_gt s = None.
Proof.
  induction s as [|x s IH]; [done|].
  rewrite includes_single. intros [Hx Hs]%orb_false_elim. simpl. rewrite Hx. by apply IH.
Qed.

(** Text before the first ['<'] is kept as it is. *)
Lemma strip_tags_text (a s : string) :
  Js.includes "<" a = false -> strip_tags (a ++ s) = a ++ strip_tags s.
Proof.
  induction a as [|x a IH]; [done|].
  rewrite includes_single. intros [Hx Ha]%orb_false_elim.
  rewrite !string_app_cons, strip_tags_cons, Hx. f_equal. by apply IH.
Qed.

Lemma strip_tags_tag (a b c : string) :
  Js.includes "<" a = false -> Js.includes ">" b = false ->
  strip_tags (a ++ "<" ++ b ++ ">" ++ c) = a ++ strip_tags c.
Proof.
  intros Ha Hb. induction a as [|x a IH].
  - change ("" ++ "<" ++ b ++ ">" ++ c) with (String "<" (b ++ ">" ++ c)).
    rewrite strip_tags_cons. simpl. by rewrite after_gt_first.
  - rewrite includes_single in Ha. apply orb_false_elim in Ha as [Hx Ha].
    rewrite !string_app_cons, strip_tags_cons, Hx. f_equal. by apply IH.
Qed.

End StripFacts.

(** ** Directions *)

(** C3 (as amended).  In every result of [getDirections] the steps are
    those of the first leg of the first route, in order, each
    instruction being the provider's text with its tags stripped.  No
    instruction holds a ['<'] with a ['>'] somewhere after it, so no
    [<...>] token is left; text without ['<'] comes out unchanged; and
    when in the provider's text every ['<'] is closed by a later ['>']
    and no ['>'] stands outside a tag, the instruction holds neither
    ['<'] nor ['>'].  Nothing else is changed: the text before the first
    ['<'] is kept as it is, a ['>'] in it included; a first ['<'] with a
    ['>'] after it is dropped together with everything up to the first
    such ['>'], and what follows is stripped in the same way; and text
    without ['>'] is kept whole, so a ['<'] that no ['>'] closes
    stays. *)
Theorem directions_instructions_stripped
    (apiKey : string) (params : Maps.GetDirectionsRequest)
    (response : Maps.DirectionsResponse) (d : Maps.DirectionsResult) :
  Maps.getDirections apiKey params (inr response) = inr d ->
  exists route leg,
    head (Maps.routes response) = Some route /\
    head (Maps.legs route) = Some leg /\
    map Maps.instruction (Maps.dr_steps d)
      = map (fun step => Maps.strip_tags (Maps.html_instructions step)) (Maps.steps leg) /\
    Forall (fun step =>
              let html := Maps.html_instructions step in
              let text := Maps.strip_tags html in
              (forall a b c, text <> a ++ "<" ++ b ++ ">" ++ c) /\
              (Js.includes "<" html = false -> text = html) /\
              (Maps.markup_ok false html = true ->
                 Js.includes "<" text = false /\ Js.includes ">" text = false) /\
              (forall a rest, html = a ++ rest -> Js.includes "<" a = false ->
                 text = a ++ Maps.strip_tags rest) /\
              (forall a b c, html = a ++ "<" ++ b ++ ">" ++ c ->
                 Js.includes "<" a = false -> Js.includes ">" b = false ->
                 text = a ++ Maps.strip_tags c) /\
              (Js.includes ">" html = false -> text = html))
           (Maps.steps leg).
Proof.
  unfold Maps.getDirections.
  destruct (negb _); [done|].
  destruct (Maps.routes response) as [|route ?]; [done|].
  destruct (Maps.legs route) as [|leg ?] eqn:Hlegs; [done|].
  intros [= <-]. exists route, leg. simpl. rewrite Hlegs.
  split; [done|]. split; [done|]. split.
  - rewrite map_map. done.
  - apply Forall_forall. intros step _. simpl. split_and!.
    + apply strip_tags_no_tag.
    + apply strip_tags_no_lt.
    + apply strip_tags_markup_ok.
    + intros a rest -> Ha. by apply strip_tags_text.
    + intros a b c -> Ha Hb. by apply strip_tags_tag.
    + intros Hgt. apply strip_tags_no_gt. by apply after_gt_absent.
Qed.

(** An instance: one route, one leg, one step with two tags. *)
Lemma directions_instructions_stripped_witness :
  let tv := {| Maps.tv_text := "0.2 km"; Maps.tv_value := 200 |} in
  let step := {| Maps.html_instructions := "Turn <b>left</b> onto <div>Main St</div>";
                 Maps.step_distance := tv; Maps.step_duration := tv |} in
  let leg := {| Maps.leg_distance := tv; Maps.leg_duration := tv;
                Maps.start_address := "Times Square"; Maps.end_address := "Central Park";
                Maps.steps := [step] |} in
  let response := {| Maps.directions_status := "OK";
                     Maps.routes := [{| Maps.route_summary := "Broadway";
                                        Maps.legs := [leg] |}] |} in
  let params := {| Maps.origin := "Times Square"; Maps.destination := "Central Park";
                   Maps.mode := "walking" |} in
  exists d,
    Maps.getDirections "KEY" params (inr response) = inr d /\
    map Maps.instruction (Maps.dr_steps d) = ["Turn left onto Main St"] /\
    exists route leg',
      head (Maps.routes response) = Some route /\ head (Maps.legs route) = Some leg'.
Proof.
  intros tv step leg response params.
  eexists. split; [vm_compute; reflexivity|]. split; [vm_compute; reflexivity|].
  destruct (directions_instructions_stripped "KEY" params response _ eq_refl)
    as (route & leg' & Hr & Hl & _).
  by exists route, leg'.
Defined.

(** C3, as stated, fails: a ['>'] outside a tag and a ['<'] that no
    ['>'] closes are kept although the text holds markup. *)
Lemma directions_instruction_keeps_angle_brackets :
  let tv := {| Maps.tv_text := "0.2 km"; Maps.tv_value := 200 |} in
  let step := {| Maps.html_instructions := "Keep <b>left</b> if height > 3m, else speed < 30";
                 Maps.step_distance := tv; Maps.step_duration := tv |} in
  let leg := {| Maps.leg_distance := tv; Maps.leg_duration := tv;
                Maps.start_address := "A"; Maps.end_address := "B";
                Maps.steps := [step] |} in
  let response := {| Maps.directions_status := "OK";
                     Maps.routes := [{| Maps.route_summary := "S"; Maps.legs := [leg] |}] |} in
  let params := {| Maps.origin := "A"; Maps.destination := "B"; Maps.mode := "driving" |} in
  exists d,
    Maps.getDirections "KEY" params (inr response) = inr d /\
    map Maps.instruction (Maps.dr_steps d)
      = ["Keep left if height > 3m, else speed < 30"] /\
    Exists (fun st => Js.includes "<" (Maps.instruction st) = true /\
                      Js.includes ">" (Maps.instruction st) = true) (Maps.dr_steps d).
Proof.
  eexists. split; [vm_compute; reflexivity|]. split; [vm_compute; reflexivity|].
  apply Exists_cons_hd. split; vm_compute; reflexivity.
Qed.

(** ** Upstream status and error classification *)

Section GatewayFacts.
Import Maps.
Variables (apiKey : string) (number_to_string : Q -> string).

Lemma api_error_flagged (status : string) :
  Js.includes "Google Maps API error" (Http.err_message (api_error status)) = true.
Proof.
  apply includes_prefix. unfold api_error. simpl Http.err_message.
  change ("Google Maps API error: " ++ status)
    with ("Google Maps API error" ++ ": " ++ status).
  apply prefix_app.
Qed.

Lemma errorHandler_api_error (status : string) :
  Http.errorHandler (api_error status)
  = Http.fail "GOOGLE_MAPS_ERROR" ("Google Maps API error: " ++ status) 502 None.
Proof.
  unfold Http.errorHandler. rewrite api_error_flagged. done.
Qed.

Lemma status_test (status : string) :
  negb (String.eqb status "OK") = false <-> status = "OK".
Proof.
  destruct (String.eqb_spec status "OK"); simpl; split; congruence.
Qed.

Lemma search_status_test (status : string) :
  negb (String.eqb status "OK") && negb (String.eqb status "ZERO_RESULTS") = false
  <-> status = "OK" \/ status = "ZERO_RESULTS".
Proof.
  destruct (String.eqb_spec status "OK"), (String.eqb_spec status "ZERO_RESULTS");
    simpl; split; try tauto; try congruence.
Qed.

End GatewayFacts.

(** C6 (as amended).  Given a response of the provider, [searchPlaces]
    and [getNearbyPlaces] return a result exactly when its status is
    [OK] or [ZERO_RESULTS]; the result is the list of the provider's
    results, each normalised, so the empty list for a [ZERO_RESULTS]
    response that carries none.  [getPlaceDetails] returns a result
    exactly when the status is [OK].  [getDirections] returns a result
    only when the status is [OK], and does so for every [OK] response
    that carries a first route with a first leg.  Each operation
    throws the error made from the provider's status,
    [Google Maps API error: <status>], exactly when the status is not
    among those it accepts. *)
Theorem upstream_status_policy (apiKey : string) (number_to_string : Q -> string) :
  (forall response : Maps.PlacesResponse,
     let status := Maps.places_status response in
     let accepted := status = "OK" \/ status = "ZERO_RESULTS" in
     ((exists rs, Maps.searchPlaces apiKey number_to_string (inr response) = inr rs)
        <-> accepted) /\
     ((exists rs, Maps.getNearbyPlaces apiKey number_to_string (inr response) = inr rs)
        <-> accepted) /\
     (status = "ZERO_RESULTS" -> Maps.results response = [] ->
        Maps.searchPlaces apiKey number_to_string (inr response) = inr [] /\
        Maps.getNearbyPlaces apiKey number_to_string (inr response) = inr []) /\
     (accepted ->
        Maps.searchPlaces apiKey number_to_string (inr response)
          = inr (map (Maps.formatPlaceResult apiKey number_to_string)
                   (Maps.results response)) /\
        Maps.getNearbyPlaces apiKey number_to_string (inr response)
          = inr (map (Maps.formatPlaceResult apiKey number_to_string)
                   (Maps.results response))) /\
     (Maps.searchPlaces apiKey number_to_string (inr response)
        = inl (Maps.api_error status) <-> ~ accepted) /\
     (Maps.getNearbyPlaces apiKey number_to_string (inr response)
        = inl (Maps.api_error status) <-> ~ accepted)) /\
  (forall response : Maps.PlaceDetailsResponse,
     let status := Maps.details_status response in
     ((exists d, Maps.getPlaceDetails apiKey number_to_string (inr response) = inr d)
        <-> status = "OK") /\
     (Maps.getPlaceDetails apiKey number_to_string (inr response)
        = inl (Maps.api_error status) <-> status <> "OK")) /\
  (forall (params : Maps.GetDirectionsRequest) (response : Maps.DirectionsResponse),
     let status := Maps.directions_status response in
     ((exists d, Maps.getDirections apiKey params (inr response) = inr d)
        -> status = "OK") /\
     (status = "OK" ->
      (exists route leg, head (Maps.routes response) = Some route /\
                         head (Maps.legs route) = Some leg) ->
      exists d, Maps.getDirections apiKey params (inr response) = inr d) /\
     (Maps.getDirections apiKey params (inr response)
        = inl (Maps.api_error status) <-> status <> "OK")) /\
  (forall status,
     Maps.api_error status = Http.Error ("Google Maps API error: " ++ status)).
Proof.
  split; [|split; [|split; [|done]]].
  - intros response status accepted.
    unfold Maps.getNearbyPlaces, Maps.searchPlaces. fold status.
    pose proof (search_status_test status) as Htest. fold accepted in Htest.
    destruct (negb (String.eqb status "OK") && negb (String.eqb status "ZERO_RESULTS")).
    + assert (Hno : ~ accepted) by (intros H; apply Htest in H; done).
      split_and!.
      * split; [by intros [? ?]|done].
      * split; [by intros [? ?]|done].
      * intros Hz. exfalso. apply Hno. by right.
      * done.
      * done.
      * done.
    + assert (Hyes : accepted) by (by apply Htest).
      split_and!.
      * split; [done|by eexists].
      * split; [done|by eexists].
      * by intros _ ->.
      * done.
      * split; [done|tauto].
      * split; [done|tauto].
  - intros response status. unfold Maps.getPlaceDetails. fold status.
    pose proof (status_test status) as Htest.
    destruct (negb (String.eqb status "OK")).
    + assert (status <> "OK") by (intros H; apply Htest in H; done).
      repeat split; try done. by intros [? ?].
    + assert (status = "OK") by (by apply Htest).
      repeat split; try done. by eexists.
  - intros params response status. unfold Maps.getDirections. fold status.
    pose proof (status_test status) as Htest.
    destruct (negb (String.eqb status "OK")).
    + assert (status <> "OK") by (intros H; apply Htest in H; done).
      repeat split; try done. by intros [? ?].
    + assert (Hok : status = "OK") by (by apply Htest).
      repeat split; try done.
      * intros _ (route & leg & Hr & Hl).
        destruct (Maps.routes response) as [|r0 ?]; [done|]. injection Hr as ->.
        destruct (Maps.legs route) as [|l0 ?]; [done|]. by eexists.
      * rewrite Hok.
        destruct (Maps.routes response) as [|r ?]; [done|].
        destruct (Maps.legs r); done.
Qed.

(** Instances: an empty search answer and a directions answer with one route. *)
Lemma upstream_status_policy_witness :
  let empty := {| Maps.places_status := "ZERO_RESULTS"; Maps.results := [] |} in
  let tv := {| Maps.tv_text := "1.2 km"; Maps.tv_value := 1200 |} in
  let leg := {| Maps.leg_distance := tv; Maps.leg_duration := tv;
                Maps.start_address := "Times Square"; Maps.end_address := "Central Park";
                Maps.steps := [] |} in
  let found := {| Maps.directions_status := "OK";
                  Maps.routes := [{| Maps.route_summary := "Broadway";
                                     Maps.legs := [leg] |}] |} in
  let params := {| Maps.origin := "Times Square"; Maps.destination := "Central Park";
                   Maps.mode := "walking" |} in
  Maps.searchPlaces "KEY" (fun _ => "0") (inr empty) = inr [] /\
  Maps.getNearbyPlaces "KEY" (fun _ => "0") (inr empty) = inr [] /\
  exists d, Maps.getDirections "KEY" params (inr found) = inr d.
Proof.
  intros empty tv leg found params.
  destruct (upstream_status_policy "KEY" (fun _ => "0")) as (Hsearch & _ & Hdir & _).
  destruct (Hsearch empty) as (_ & _ & Hzero & _).
  destruct (Hzero eq_refl eq_refl) as [H1 H2].
  split; [exact H1|]. split; [exact H2|].
  destruct (Hdir params found) as (_ & Hok & _).
  apply Hok; [reflexivity|].
  eexists _, _. split; reflexivity.
Defined.

(** C6, as stated, fails for an [OK] answer without a route: the
    status is [OK] and [getDirections] returns no result; what it
    throws is the [TypeError] of reading [legs] of [undefined], which
    does not carry the status. *)
Lemma directions_ok_without_route_fails :
  let params := {| Maps.origin := "A"; Maps.destination := "B"; Maps.mode := "driving" |} in
  let response := {| Maps.directions_status := "OK"; Maps.routes := [] |} in
  Maps.directions_status response = "OK" /\
  (~ exists d, Maps.getDirections "KEY" params (inr response) = inr d) /\
  Maps.getDirections "KEY" params (inr response) = inl (Maps.TypeError_undefined "legs") /\
  Maps.TypeError_undefined "legs" <> Maps.api_error "OK".
Proof.
  intros params response. split_and!; try reflexivity.
  - by intros [d Hd].
  - intros H. discriminate H.
Qed.

(** The same answer seen from the client: the error handler answers the
    [TypeError] with status 500. *)
Example directions_ok_without_route :
  let params := {| Maps.origin := "A"; Maps.destination := "B"; Maps.mode := "driving" |} in
  let response := {| Maps.directions_status := "OK"; Maps.routes := [] |} in
  Maps.getDirections "KEY" params (inr response) = inl (Maps.TypeError_undefined "legs") /\
  Http.status (Http.errorHandler (Maps.TypeError_undefined "legs")) = 500.
Proof. split; reflexivity. Qed.

(** C2 (as amended).  When the provider answers with a status the
    operation does not accept, the operation throws an error that the
    error handler classifies as GOOGLE_MAPS_ERROR with HTTP status 502,
    the message [Google Maps API error: <status>] kept in the envelope.
    When the call to the provider itself throws, the operation throws
    that same error again, and the handler classifies an error that is
    not a validation error by its message alone: GOOGLE_MAPS_ERROR / 502
    with the message kept when the message contains
    [Google Maps API error], INTERNAL_SERVER_ERROR / 500 with a fixed
    message otherwise. *)
Theorem upstream_failure_classification (apiKey : string) (number_to_string : Q -> string) :
  (forall status,
     Http.errorHandler (Maps.api_error status)
       = Http.fail "GOOGLE_MAPS_ERROR" ("Google Maps API error: " ++ status) 502 None) /\
  (forall response : Maps.PlacesResponse,
     ~ (Maps.places_status response = "OK" \/ Maps.places_status response = "ZERO_RESULTS") ->
     Maps.searchPlaces apiKey number_to_string (inr response)
       = inl (Maps.api_error (Maps.places_status response)) /\
     Maps.getNearbyPlaces apiKey number_to_string (inr response)
       = inl (Maps.api_error (Maps.places_status response))) /\
  (forall response : Maps.PlaceDetailsResponse,
     Maps.details_status response <> "OK" ->
     Maps.getPlaceDetails apiKey number_to_string (inr response)
       = inl (Maps.api_error (Maps.details_status response))) /\
  (forall params (response : Maps.DirectionsResponse),
     Maps.directions_status response <> "OK" ->
     Maps.getDirections apiKey params (inr response)
       = inl (Maps.api_error (Maps.directions_status response))) /\
  (forall (error : Http.JsError) params,
     Maps.searchPlaces apiKey number_to_string (inl error) = inl error /\
     Maps.getNearbyPlaces apiKey number_to_string (inl error) = inl error /\
     Maps.getPlaceDetails apiKey number_to_string (inl error) = inl error /\
     Maps.getDirections apiKey params (inl error) = inl error) /\
  (forall error : Http.JsError,
     Http.zod_issues error = None ->
     Http.errorHandler error =
       if Js.includes "Google Maps API error" (Http.err_message error)
       then Http.fail "GOOGLE_MAPS_ERROR" (Http.err_message error) 502 None
       else Http.fail "INTERNAL_SERVER_ERROR" "An unexpected error occurred" 500 None).
Proof.
  split_and!.
  - apply errorHandler_api_error.
  - intros response Hno. unfold Maps.getNearbyPlaces, Maps.searchPlaces.
    pose proof (search_status_test (Maps.places_status response)) as Htest.
    destruct (negb _ && negb _); [done|]. destruct Hno. by apply Htest.
  - intros response Hno. unfold Maps.getPlaceDetails.
    pose proof (status_test (Maps.details_status response)) as Htest.
    destruct (negb _); [done|]. destruct Hno. by apply Htest.
  - intros params response Hno. unfold Maps.getDirections.
    pose proof (status_test (Maps.directions_status response)) as Htest.
    destruct (negb _); [done|]. destruct Hno. by apply Htest.
  - done.
  - intros error Hz. unfold Http.errorHandler. by rewrite Hz.
Qed.

(** Instances: a denied search, and a timeout of the HTTP client. *)
Lemma upstream_failure_classification_witness :
  let denied := {| Maps.places_status := "REQUEST_DENIED"; Maps.results := [] |} in
  Maps.searchPlaces "KEY" (fun _ => "0") (inr denied)
    = inl (Maps.api_error "REQUEST_DENIED") /\
  Http.errorHandler (Maps.api_error "REQUEST_DENIED")
    = Http.fail "GOOGLE_MAPS_ERROR" "Google Maps API error: REQUEST_DENIED" 502 None /\
  Http.errorHandler (Http.Error "timeout of 5000ms exceeded")
    = Http.fail "INTERNAL_SERVER_ERROR" "An unexpected error occurred" 500 None.
Proof.
  intros denied.
  destruct (upstream_failure_classification "KEY" (fun _ => "0"))
    as (Hflag & Hplaces & _ & _ & _ & Hother).
  split; [|split].
  - refine (proj1 (Hplaces denied _)). intros [H|H]; discriminate H.
  - exact (Hflag "REQUEST_DENIED").
  - exact (Hother (Http.Error "timeout of 5000ms exceeded") eq_refl).
Defined.

(** C2, as stated, fails when the outbound call itself fails: the error
    of the HTTP client is thrown again as it is, its message does not
    contain [Google Maps API error], and the handler answers
    INTERNAL_SERVER_ERROR with status 500 and a fixed message. *)
Lemma network_failure_is_internal_error :
  let error := Http.Error "connect ECONNREFUSED 142.250.4.95:443" in
  Maps.searchPlaces "KEY" (fun _ => "0") (inl error) = inl error /\
  Http.errorHandler error
    = Http.fail "INTERNAL_SERVER_ERROR" "An unexpected error occurred" 500 None /\
  Http.status (Http.errorHandler error) <> 502 /\
  Http.error (Http.body (Http.errorHandler error)) <> "GOOGLE_MAPS_ERROR" /\
  Http.message (Http.body (Http.errorHandler error)) <> Http.err_message error.
Proof. vm_compute. split_and!; done. Qed.

(** ** Place details *)

(** C9.  The reviews of a [getPlaceDetails] result are the first five
    reviews of the provider's list, in the provider's order, each
    converted field by field; so there are at most five, as many as the
    provider sent when it sent fewer; a place without reviews has none. *)
Theorem place_details_reviews_truncated
    (apiKey : string) (number_to_string : Q -> string)
    (response : Maps.PlaceDetailsResponse) (d : Maps.PlaceDetails) :
  Maps.getPlaceDetails apiKey number_to_string (inr response) = inr d ->
  Maps.pd_reviews d
    = (fun rs => map Maps.formatReview (take 5 rs)) <$> Maps.reviews (Maps.result response) /\
  forall rs, Maps.pd_reviews d = Some rs ->
    (length rs <= 5)%nat /\
    exists sent, Maps.reviews (Maps.result response) = Some sent /\
                 rs = take 5 (map Maps.formatReview sent) /\
                 length rs = Nat.min 5 (length sent).
Proof.
  unfold Maps.getPlaceDetails. destruct (negb _); [done|]. intros [= <-]. simpl.
  split; [done|]. intros rs.
  destruct (Maps.reviews (Maps.result response)) as [sent|]; [|done].
  simpl. intros [= <-]. rewrite length_map, length_take. split; [lia|].
  exists sent. split; [done|]. split; [|done].
  rewrite <- fmap_take. done.
Qed.

(** An instance: seven reviews sent, the first five kept in order. *)
Lemma place_details_reviews_truncated_witness :
  let review (n : Q) := {| Maps.author_name := "Ayu"; Maps.review_rating := n;
                           Maps.review_text := "ok"; Maps.time := 1700000000%Q |} in
  let place :=
    {| Maps.place_id := Some "ChIJN1t_tDeuEmsRUsoyG83frY4"; Maps.name := Some "Kopi Kenangan";
       Maps.formatted_address := Some "Jl. Sudirman, Jakarta"; Maps.vicinity := None;
       Maps.geometry := None; Maps.rating := Some (43 # 10)%Q; Maps.user_ratings_total := None;
       Maps.types := None; Maps.business_status := None; Maps.price_level := None;
       Maps.photos := None; Maps.formatted_phone_number := None; Maps.website := None;
       Maps.opening_hours := None;
       Maps.reviews := Some (map review [1; 2; 3; 4; 5; 4; 3]%Q) |} in
  let response := {| Maps.details_status := "OK"; Maps.result := place |} in
  exists d rs,
    Maps.getPlaceDetails "KEY" (fun _ => "0") (inr response) = inr d /\
    Maps.pd_reviews d = Some rs /\
    map Maps.rv_rating rs = [1; 2; 3; 4; 5]%Q /\
    (length rs <= 5)%nat.
Proof.
  intros review place response.
  eexists _, _. split; [reflexivity|]. split; [reflexivity|]. split; [reflexivity|].
  exact (proj1 (proj2 (place_details_reviews_truncated "KEY" (fun _ => "0") response
                         _ eq_refl) _ eq_refl)).
Defined.

(** ** Place links *)

Section UrlFacts.
Import Maps Url.

Lemma chars_ok_cons (c : ascii) (s : string) :
  Ascii.eqb c "%" = false -> chars_ok (String c s) = is_url_char c && chars_ok s.
Proof. intros H. simpl. by rewrite H. Qed.

Lemma chars_ok_escape (h1 h2 : ascii) (s : string) :
  chars_ok (String "%" (String h1 (String h2 s))) = is_hex h1 && is_hex h2 && chars_ok s.
Proof. done. Qed.

Lemma chars_ok_app (a b : string) :
  chars_ok a = true -> chars_ok b = true -> chars_ok (a ++ b) = true.
Proof.
  intros Ha Hb. remember (String.length a) as n eqn:Hn. revert a Hn Ha.
  induction n as [n IH] using lt_wf_ind. intros [|c a] Hn Ha; [done|].
  simpl in Hn. rewrite string_app_cons.
  destruct (Ascii.eqb c "%") eqn:Ec.
  - apply Ascii.eqb_eq in Ec as ->.
    destruct a as [|h1 [|h2 a]]; [done|done|].
    rewrite chars_ok_escape in Ha. apply andb_prop in Ha as [Hh Ha].
    rewrite !string_app_cons, chars_ok_escape, Hh. simpl.
    apply (IH (String.length a)); [simpl in Hn; lia|done|done].
  - rewrite chars_ok_cons in Ha |- * by done.
    apply andb_prop in Ha as [Hc Ha]. rewrite Hc. simpl.
    apply (IH (String.length a)); [lia|done|done].
Qed.

Lemma unescaped_is_url_char (c : ascii) :
  is_uri_unescaped c = true -> Ascii.eqb c "%" = false /\ is_url_char c = true.
Proof. destruct c as [[] [] [] [] [] [] [] []]; vm_compute; intros; split; congruence. Qed.

Lemma percent_escape_hex (c : ascii) :
  exists h1 h2, percent_escape c = String "%" (String h1 (String h2 ""))
                /\ is_hex h1 = true /\ is_hex h2 = true.
Proof.
  destruct c as [[] [] [] [] [] [] [] []]; eexists _, _;
    (split; [vm_compute; reflexivity|split; vm_compute; reflexivity]).
Qed.

(** What [encodeURIComponent] writes is made of URL characters and
    complete escapes. *)
Lemma encodeURIComponent_chars_ok (s : string) : chars_ok (encodeURIComponent s) = true.
Proof.
  induction s as [|c s IH]; [done|]. simpl encodeURIComponent.
  destruct (is_uri_unescaped c) eqn:Hc.
  - apply unescaped_is_url_char in Hc as [Hp Hu].
    rewrite string_app_cons. rewrite chars_ok_cons by done. rewrite Hu. exact IH.
  - destruct (percent_escape_hex c) as (h1 & h2 & -> & H1 & H2).
    rewrite !string_app_cons, chars_ok_escape, H1, H2. exact IH.
Qed.

End UrlFacts.

Lemma valid_https (c : ascii) (l x : string) :
  Url.is_unreserved c || Url.is_hex c = true ->
  Url.chars_ok (String c l) = true ->
  Url.chars_ok x = true ->
  Url.is_valid_url ("https://" ++ String c l ++ x) = true.
Proof.
  intros Hc Hl Hx. unfold Url.is_valid_url.
  rewrite prefix_app. change 8%nat with (String.length "https://").
  rewrite drop_app, string_app_cons, Hc.
  change (Url.chars_ok (String c l ++ x) = true). by apply chars_ok_app.
Qed.

(** C5 (as amended).  For every place, whatever of identifier and
    geometry the provider sent, both links of the result are present and
    not empty: [googleMapsUrl] is the fixed place link followed by the
    identifier as it is ([undefined] when absent), [embedMapUrl] the
    fixed embed link followed by the API key and the percent-encoded
    query.  The query is [place_id:<id>] when the identifier is a
    non-empty string; otherwise, for coordinates that are not accessor
    functions, it is [<lat>,<lng>] with the latitude and longitude of
    the result's location ([undefined] for an absent one).
    [embedMapUrl] is a syntactically valid URL when the API key is made
    of URL characters, and [googleMapsUrl] when the identifier is. *)
Theorem place_links (apiKey : string) (number_to_string : Q -> string) (place : Maps.Place) :
  let r := Maps.formatPlaceResult apiKey number_to_string place in
  let embed query :=
    "https://www.google.com/maps/embed/v1/place?key=" ++ apiKey ++ "&q="
      ++ Maps.encodeURIComponent query in
  let text (o : option Q) :=
    match o with Some n => number_to_string n | None => "undefined" end in
  Maps.googleMapsUrl r
    = "https://www.google.com/maps/place/?q=place_id:" ++ Maps.tpl (Maps.place_id place) /\
  Maps.googleMapsUrl r <> "" /\
  Maps.embedMapUrl r <> "" /\
  (forall id, Maps.place_id place = Some id -> Js.truthy id = true ->
     Maps.embedMapUrl r = embed ("place_id:" ++ id)) /\
  (Js.truthy_opt (Maps.place_id place) = false ->
   forall lat lng,
     lat = from_option Maps.lat Maps.CUndefined (Maps.geometry place ≫= Maps.location) ->
     lng = from_option Maps.lng Maps.CUndefined (Maps.geometry place ≫= Maps.location) ->
     Maps.is_accessor lat = false -> Maps.is_accessor lng = false ->
     Maps.embedMapUrl r
       = embed (text (Maps.pr_location r).1 ++ "," ++ text (Maps.pr_location r).2)) /\
  (Url.chars_ok apiKey = true -> Url.is_valid_url (Maps.embedMapUrl r) = true) /\
  (Url.chars_ok (Maps.tpl (Maps.place_id place)) = true ->
     Url.is_valid_url (Maps.googleMapsUrl r) = true).
Proof.
  intros r embed text. split_and!.
  - done.
  - done.
  - done.
  - intros id Hid Ht. unfold r, embed. simpl. unfold Maps.generateEmbedMapUrl.
    rewrite Hid. simpl. by rewrite Ht.
  - intros Hno lat lng -> -> Hlat Hlng. unfold r, embed. simpl.
    unfold Maps.generateEmbedMapUrl. rewrite Hno.
    destruct (from_option Maps.lat _ _), (from_option Maps.lng _ _); done.
  - intros Hkey. unfold r. simpl. unfold Maps.generateEmbedMapUrl.
    apply (valid_https "w" "ww.google.com/maps/embed/v1/place?key="); [done|done|].
    apply chars_ok_app; [done|]. apply (chars_ok_app "&q="); [done|].
    apply encodeURIComponent_chars_ok.
  - intros Hid. unfold r. simpl. unfold Maps.generatePlaceUrl.
    by apply (valid_https "w" "ww.google.com/maps/place/?q=place_id:").
Qed.

(** An instance: a place with an identifier and no geometry. *)
Lemma place_links_witness :
  let place :=
    {| Maps.place_id := Some "ChIJN1t_tDeuEmsRUsoyG83frY4"; Maps.name := Some "Kopi Kenangan";
       Maps.formatted_address := None; Maps.vicinity := None;
       Maps.geometry := None; Maps.rating := Some (43 # 10)%Q;
       Maps.user_ratings_total := None; Maps.types := None; Maps.business_status := None;
       Maps.price_level := None; Maps.photos := None; Maps.formatted_phone_number := None;
       Maps.website := None; Maps.opening_hours := None; Maps.reviews := None |} in
  let r := Maps.formatPlaceResult "AIzaSyKEY" (fun _ => "0") place in
  Maps.embedMapUrl r
    = "https://www.google.com/maps/embed/v1/place?key=AIzaSyKEY&q=place_id%3AChIJN1t_tDeuEmsRUsoyG83frY4" /\
  Url.is_valid_url (Maps.embedMapUrl r) = true /\
  Url.is_valid_url (Maps.googleMapsUrl r) = true.
Proof.
  intros place r.
  destruct (place_links "AIzaSyKEY" (fun _ => "0") place)
    as (_ & _ & _ & Hid & _ & Hembed & Hplace).
  split; [exact (Hid _ eq_refl eq_refl)|].
  split; [exact (Hembed eq_refl)|exact (Hplace eq_refl)].
Defined.

(** C5, as stated, fails for an identifier that is not made of URL
    characters: it is written into [googleMapsUrl] as it is, and the
    link then holds a space. *)
Lemma place_link_with_space_invalid :
  let place :=
    {| Maps.place_id := Some "cafe 24"; Maps.name := Some "Cafe";
       Maps.formatted_address := None; Maps.vicinity := None;
       Maps.geometry := None; Maps.rating := None;
       Maps.user_ratings_total := None; Maps.types := None; Maps.business_status := None;
       Maps.price_level := None; Maps.photos := None; Maps.formatted_phone_number := None;
       Maps.website := None; Maps.opening_hours := None; Maps.reviews := None |} in
  let r := Maps.formatPlaceResult "AIzaSyKEY" (fun _ => "0") place in
  Maps.googleMapsUrl r = "https://www.google.com/maps/place/?q=place_id:cafe 24" /\
  Js.includes " " (Maps.googleMapsUrl r) = true /\
  Url.is_valid_url (Maps.googleMapsUrl r) = false.
Proof. vm_compute. split_and!; reflexivity. Qed.

(** Without an identifier, coordinates given as accessor functions reach
    [generateEmbedMapUrl] uncalled: the query holds their source text,
    while the location of the result holds the numbers they return. *)
Example embed_query_of_accessors :
  let at_ n := Maps.CAccessor "()=>this.v" n in
  let place :=
    {| Maps.place_id := None; Maps.name := None;
       Maps.formatted_address := None; Maps.vicinity := None;
       Maps.geometry :=
         Some {| Maps.location := Some {| Maps.lat := at_ 1%Q; Maps.lng := at_ 2%Q |} |};
       Maps.rating := None;
       Maps.user_ratings_total := None; Maps.types := None; Maps.business_status := None;
       Maps.price_level := None; Maps.photos := None; Maps.formatted_phone_number := None;
       Maps.website := None; Maps.opening_hours := None; Maps.reviews := None |} in
  let r := Maps.formatPlaceResult "KEY" (fun _ => "0") place in
  Maps.pr_location r = (Some 1%Q, Some 2%Q) /\
  Maps.embedMapUrl r
    = "https://www.google.com/maps/embed/v1/place?key=KEY&q="
        ++ Maps.encodeURIComponent "()=>this.v,()=>this.v".
Proof. split; reflexivity. Qed.

(** ** Request validation *)

Section ZodFacts.
Import Zod.

Lemma query_schema_ok (p : list string) (v : option json) (q : string) :
  query_schema p v = inr q <->
  v = Some (JStr q) /\ (1 <= String.length q)%nat /\ (Js.utf16_length q <= 500)%nat.
Proof.
  unfold query_schema, z_string.
  destruct v as [[| | |s| |]|]; try (split; [done|by intros [? _]]).
  unfold run_checks, min_length, max_length. simpl.
  destruct (Nat.ltb_spec (String.length s) 1), (Nat.ltb_spec 500 (Js.utf16_length s));
    simpl; split; try done; try (intros [[= ->] ?]; lia).
  - intros [= ->]. split; [done|lia].
  - by intros [[= ->] _].
Qed.

Lemma query_schema_issues (p : list string) (v : option json) :
  issues_of (query_schema p v) =
    match v with
    | Some (JStr s) =>
        (if (String.length s <? 1)%nat
         then [{| path := p; message := Custom "Query is required" |}] else [])
        ++ (if (500 <? Js.utf16_length s)%nat
            then [{| path := p; message := Custom "Query too long" |}] else [])
    | _ => [{| path := p; message := Default (invalid_type TString (typeof v)) |}]
    end%list.
Proof.
  unfold query_schema, z_string. destruct v as [[| | |s| |]|]; try done.
  unfold run_checks, min_length, max_length. simpl.
  by destruct (String.length s <? 1)%nat, (500 <? Js.utf16_length s)%nat.
Qed.

Lemma text_schema_ok (p : list string) (v : option json) :
  (exists o, text_schema p v = inr o) <-> v = None \/ exists s, v = Some (JStr s).
Proof.
  unfold text_schema, z_optional, z_string, run_checks.
  destruct v as [[| | |s| |]|]; simpl; split;
    try (by intros [? ?]); try (intros [?|[? ?]]; done); eauto.
Qed.

Lemma text_schema_issues (p : list string) (v : option json) :
  issues_of (text_schema p v) =
    match v with
    | None | Some (JStr _) => []
    | _ => [{| path := p; message := Default (invalid_type TString (typeof v)) |}]
    end.
Proof.
  unfold text_schema, z_optional, z_string, run_checks.
  by destruct v as [[| | |s| |]|].
Qed.

Lemma radius_schema_ok (p : list string) (v : option json) (r : Q) :
  radius_schema p v = inr r <->
  (v = None /\ r = 5000%Q) \/ (v = Some (JNum r) /\ (1 <= r)%Q /\ (r <= 50000)%Q).
Proof.
  unfold radius_schema, z_optional_default, z_number.
  destruct v as [[| |x| | |]|];
    try (split; [done|intros [[? ?]|[? ?]]; done]).
  - unfold run_checks, min_value, max_value. simpl.
    destruct (Qle_bool 1 x) eqn:H1, (Qle_bool x 50000) eqn:H2; simpl.
    + split.
      * intros [= ->]. right. by rewrite <- !Qle_bool_iff.
      * intros [[? ?]|[[= ->] ?]]; done.
    + split; [done|]. intros [[? ?]|[[= ->] [_ H]]]; [done|].
      apply Qle_bool_iff in H. congruence.
    + split; [done|]. intros [[? ?]|[[= ->] [H _]]]; [done|].
      apply Qle_bool_iff in H. congruence.
    + split; [done|]. intros [[? ?]|[[= ->] [H _]]]; [done|].
      apply Qle_bool_iff in H. congruence.
  - split.
    + intros [= <-]. by left.
    + intros [[_ ->]|[? _]]; done.
Qed.

Lemma radius_schema_issues (p : list string) (v : option json) :
  issues_of (radius_schema p v) =
    match v with
    | None => []
    | Some (JNum r) =>
        (if Qle_bool 1 r then []
         else [{| path := p; message := Default (too_small 1) |}])
        ++ (if Qle_bool r 50000 then []
            else [{| path := p; message := Default (too_big 50000) |}])
    | _ => [{| path := p; message := Default (invalid_type TNumber (typeof v)) |}]
    end%list.
Proof.
  unfold radius_schema, z_optional_default, z_number.
  destruct v as [[| |x| | |]|]; try done.
  unfold run_checks, min_value, max_value. simpl.
  by destruct (Qle_bool 1 x), (Qle_bool x 50000).
Qed.

Lemma SearchPlacesSchema_object (fields : list (string * json)) :
  SearchPlacesSchema (Some (JObj fields)) =
    match query_schema ["query"] (get "query" fields),
          text_schema ["location"] (get "location" fields),
          radius_schema ["radius"] (get "radius" fields),
          text_schema ["type"] (get "type" fields) with
    | inr q, inr l, inr r, inr t =>
        inr {| query := q; location := l; radius := r; type_ := t |}
    | q, l, r, t => inl (issues_of q ++ issues_of l ++ issues_of r ++ issues_of t)%list
    end.
Proof.
  unfold SearchPlacesSchema.
  destruct (query_schema _ _), (text_schema ["location"] _), (radius_schema _ _),
    (text_schema ["type"] _); done.
Qed.

End ZodFacts.

Lemma SearchPlacesSchema_accepts (fields : list (string * Zod.json))
    (req : Zod.SearchPlacesRequest) :
  Zod.SearchPlacesSchema (Some (Zod.JObj fields)) = inr req <->
  Zod.query_schema ["query"] (Zod.get "query" fields) = inr (Zod.query req) /\
  Zod.text_schema ["location"] (Zod.get "location" fields) = inr (Zod.location req) /\
  Zod.radius_schema ["radius"] (Zod.get "radius" fields) = inr (Zod.radius req) /\
  Zod.text_schema ["type"] (Zod.get "type" fields) = inr (Zod.type_ req).
Proof.
  rewrite SearchPlacesSchema_object.
  destruct (Zod.query_schema _ _) as [?|q1], (Zod.text_schema ["location"] _) as [?|l2],
    (Zod.radius_schema _ _) as [?|r3], (Zod.text_schema ["type"] _) as [?|t4];
    (split; [try done|try (by intros (? & ? & ? & ?))]).
  - by intros [= <-].
  - destruct req. simpl. by intros ([= ->] & [= ->] & [= ->] & [= ->]).
Qed.

Lemma SearchPlacesSchema_rejects (fields : list (string * Zod.json))
    (issues : list Zod.issue) :
  Zod.SearchPlacesSchema (Some (Zod.JObj fields)) = inl issues ->
  issues =
    (Zod.issues_of (Zod.query_schema ["query"] (Zod.get "query" fields))
     ++ Zod.issues_of (Zod.text_schema ["location"] (Zod.get "location" fields))
     ++ Zod.issues_of (Zod.radius_schema ["radius"] (Zod.get "radius" fields))
     ++ Zod.issues_of (Zod.text_schema ["type"] (Zod.get "type" fields)))%list.
Proof.
  rewrite SearchPlacesSchema_object.
  destruct (Zod.query_schema _ _) as [?|q1], (Zod.text_schema ["location"] _) as [?|l2],
    (Zod.radius_schema _ _) as [?|r3], (Zod.text_schema ["type"] _) as [?|t4];
    by intros [= <-].
Qed.

(** A failed parse always carries an issue. *)
Lemma run_checks_issue {A} (checks : list (Zod.check A)) (p : list string) (a : A)
    (errs : list Zod.issue) :
  Zod.run_checks checks p a = inl errs -> errs <> [].
Proof.
  unfold Zod.run_checks.
  match goal with |- context [omap ?f ?l] => destruct (omap f l) end; [done|].
  by intros [= <-].
Qed.

Lemma field_issue (p : list string) (v : option Zod.json) (errs : list Zod.issue) :
  (Zod.query_schema p v = inl errs -> errs <> []) /\
  (Zod.text_schema p v = inl errs -> errs <> []) /\
  (Zod.radius_schema p v = inl errs -> errs <> []).
Proof.
  unfold Zod.query_schema, Zod.text_schema, Zod.radius_schema, Zod.z_optional,
    Zod.z_optional_default, Zod.z_string, Zod.z_number.
  split_and!.
  - destruct v as [[| | |s| |]|]; try (by intros [= <-]). apply run_checks_issue.
  - destruct v as [[| | |s| |]|]; try (by intros [= <-]); done.
  - destruct v as [[| |x| | |]|]; try (by intros [= <-]); try apply run_checks_issue.
Qed.

Lemma SearchPlacesSchema_issue (body : option Zod.json) (issues : list Zod.issue) :
  Zod.SearchPlacesSchema body = inl issues -> issues <> [].
Proof.
  destruct body as [[| | | | |fields]|]; try by intros [= <-].
  rewrite SearchPlacesSchema_object.
  destruct (Zod.query_schema _ _) as [e1|q1] eqn:E1;
    [apply field_issue in E1; intros [= <-]; simpl;
     intros [? _]%app_eq_nil; done|].
  destruct (Zod.text_schema ["location"] _) as [e2|l2] eqn:E2;
    [apply field_issue in E2; intros [= <-]; simpl;
     intros [? _]%app_eq_nil; done|].
  destruct (Zod.radius_schema _ _) as [e3|r3] eqn:E3;
    [apply field_issue in E3; intros [= <-]; simpl;
     intros [? _]%app_eq_nil; done|].
  destruct (Zod.text_schema ["type"] _) as [e4|t4] eqn:E4; [|done].
  apply field_issue in E4. by intros [= <-].
Qed.

(** C7 (as amended).  The validator of search-places accepts a body
    exactly when it is an object whose [query] is a non-empty string of
    at most 500 UTF-16 units (the length JavaScript gives it), whose
    [radius], when present, is a number in [1, 50000], and
    whose [location] and [type], when present, are strings.  The parsed
    request has the query as sent and the radius as sent, 5000 when it
    was absent.  A rejected body comes with a list of issues that is not
    empty, which the error handler turns into the details of a 400
    VALIDATION_ERROR, one [{path, message}] per issue; and for an object
    every violated constraint has its own issue under the path of its
    key: a [query] that is not a string, too short or too long, a
    [radius] that is not a number, below 1 or above 50000, a [location]
    or [type] that is not a string. *)
Theorem search_places_validation (body : option Zod.json) :
  ((exists req, Zod.SearchPlacesSchema body = inr req) <->
   exists fields, body = Some (Zod.JObj fields) /\
     (exists q, Zod.get "query" fields = Some (Zod.JStr q) /\
                (1 <= String.length q)%nat /\ (Js.utf16_length q <= 500)%nat) /\
     (Zod.get "radius" fields = None \/
      exists r, Zod.get "radius" fields = Some (Zod.JNum r) /\
                (1 <= r)%Q /\ (r <= 50000)%Q) /\
     (Zod.get "location" fields = None \/
      exists s, Zod.get "location" fields = Some (Zod.JStr s)) /\
     (Zod.get "type" fields = None \/
      exists s, Zod.get "type" fields = Some (Zod.JStr s))) /\
  (forall fields req,
     body = Some (Zod.JObj fields) -> Zod.SearchPlacesSchema body = inr req ->
     Zod.get "query" fields = Some (Zod.JStr (Zod.query req)) /\
     (Zod.get "radius" fields = None -> Zod.radius req = 5000%Q) /\
     (forall r, Zod.get "radius" fields = Some (Zod.JNum r) -> Zod.radius req = r)) /\
  (forall issues,
     Zod.SearchPlacesSchema body = inl issues ->
     issues <> [] /\
     (forall msg,
        Http.errorHandler {| Http.zod_issues := Some issues; Http.err_message := msg |}
        = Http.fail "VALIDATION_ERROR" "Invalid request parameters" 400
            (Some (map (fun e => {| Http.path := Http.join "." (Zod.path e);
                                    Http.detail_message := Zod.message e |}) issues))) /\
     forall fields, body = Some (Zod.JObj fields) ->
       let reported key m := {| Zod.path := [key]; Zod.message := m |} ∈ issues in
       let wrong_type t v := Zod.Default (Zod.invalid_type t (Zod.typeof v)) in
       let query := Zod.get "query" fields in
       let radius := Zod.get "radius" fields in
       let location := Zod.get "location" fields in
       let type_ := Zod.get "type" fields in
       ((forall s, query <> Some (Zod.JStr s)) ->
          reported "query" (wrong_type Zod.TString query)) /\
       (forall s, query = Some (Zod.JStr s) -> (String.length s < 1)%nat ->
          reported "query" (Zod.Custom "Query is required")) /\
       (forall s, query = Some (Zod.JStr s) -> (500 < Js.utf16_length s)%nat ->
          reported "query" (Zod.Custom "Query too long")) /\
       (radius <> None -> (forall r, radius <> Some (Zod.JNum r)) ->
          reported "radius" (wrong_type Zod.TNumber radius)) /\
       (forall r, radius = Some (Zod.JNum r) -> ~ (1 <= r)%Q ->
          reported "radius" (Zod.Default (Zod.too_small 1))) /\
       (forall r, radius = Some (Zod.JNum r) -> ~ (r <= 50000)%Q ->
          reported "radius" (Zod.Default (Zod.too_big 50000))) /\
       (location <> None -> (forall s, location <> Some (Zod.JStr s)) ->
          reported "location" (wrong_type Zod.TString location)) /\
       (type_ <> None -> (forall s, type_ <> Some (Zod.JStr s)) ->
          reported "type" (wrong_type Zod.TString type_))).
Proof.
  split_and!.
  - split.
    + intros [req Hreq].
      destruct body as [[| | | | |fields]|]; try done.
      apply SearchPlacesSchema_accepts in Hreq as (Hq & Hl & Hr & Ht).
      exists fields. split; [done|]. split_and!.
      * exists (Zod.query req). by apply query_schema_ok in Hq.
      * apply radius_schema_ok in Hr as [[? _]|?]; [by left|right; eauto].
      * apply (text_schema_ok ["location"]). eauto.
      * apply (text_schema_ok ["type"]). eauto.
    + intros (fields & -> & (q & Hq & Hlen) & Hr & Hl & Ht).
      apply (text_schema_ok ["location"]) in Hl as [l Hl].
      apply (text_schema_ok ["type"]) in Ht as [t Ht].
      assert (exists r, Zod.radius_schema ["radius"] (Zod.get "radius" fields) = inr r)
        as [r Hrad].
      { destruct Hr as [Hr|(r & Hr & Hb)].
        - exists 5000%Q. apply radius_schema_ok. by left.
        - exists r. apply radius_schema_ok. by right. }
      exists {| Zod.query := q; Zod.location := l; Zod.radius := r; Zod.type_ := t |}.
      apply SearchPlacesSchema_accepts. simpl. split_and!; try done.
      by apply query_schema_ok.
  - intros fields req -> Hreq.
    apply SearchPlacesSchema_accepts in Hreq as (Hq & _ & Hr & _).
    apply query_schema_ok in Hq as [Hq _]. apply radius_schema_ok in Hr.
    split_and!; [done| |].
    + intros Hnone. destruct Hr as [[_ ?]|[Hr _]]; [done|congruence].
    + intros r Hsome. destruct Hr as [[Hr _]|[Hr _]]; congruence.
  - intros issues Hrej. split_and!.
    + by apply (SearchPlacesSchema_issue body).
    + done.
    + intros fields -> reported wrong_type query radius location type_.
      apply SearchPlacesSchema_rejects in Hrej. subst issues.
      unfold reported, wrong_type. cbv beta.
      rewrite query_schema_issues, !text_schema_issues, radius_schema_issues.
      fold query radius location type_.
      split_and!.
      * intros Hq. rewrite !elem_of_app. left.
        destruct query as [[| | |s| |]|]; try apply list_elem_of_here.
        by destruct (Hq s).
      * intros s -> Hlen. rewrite !elem_of_app. left. left.
        destruct (Nat.ltb_spec (String.length s) 1); [apply list_elem_of_here|lia].
      * intros s -> Hlen. rewrite !elem_of_app. left. right.
        destruct (Nat.ltb_spec 500 (Js.utf16_length s)); [apply list_elem_of_here|lia].
      * intros Hsome Hr. rewrite !elem_of_app. right. right. left.
        destruct radius as [[| |x| | |]|]; try apply list_elem_of_here; [|done].
        by destruct (Hr x).
      * intros r -> Hr. rewrite !elem_of_app. right. right. left. left.
        destruct (Qle_bool 1 r) eqn:E; [|apply list_elem_of_here].
        by apply Qle_bool_iff in E.
      * intros r -> Hr. rewrite !elem_of_app. right. right. left. right.
        destruct (Qle_bool r 50000) eqn:E; [|apply list_elem_of_here].
        by apply Qle_bool_iff in E.
      * intros Hsome Hl. rewrite !elem_of_app. right. left.
        destruct location as [[| | |s| |]|]; try apply list_elem_of_here; [|done].
        by destruct (Hl s).
      * intros Hsome Ht. rewrite !elem_of_app. right. right. right.
        destruct type_ as [[| | |s| |]|]; try apply list_elem_of_here; [|done].
        by destruct (Ht s).
Qed.

(** Instances: a body with only a query, a body with an empty query and
    radius 0, and a query of 300 accented letters (600 bytes). *)
Lemma search_places_validation_witness :
  let accepted := Some (Zod.JObj [("query", Zod.JStr "coffee shops in Jakarta")]) in
  let rejected := Some (Zod.JObj [("query", Zod.JStr ""); ("radius", Zod.JNum 0)]) in
  let accents := String.concat "" (repeat "é" 300) in
  (exists req, Zod.SearchPlacesSchema accepted = inr req /\ Zod.radius req = 5000%Q) /\
  (exists issues,
     Zod.SearchPlacesSchema rejected = inl issues /\
     {| Zod.path := ["query"]; Zod.message := Zod.Custom "Query is required" |} ∈ issues /\
     {| Zod.path := ["radius"]; Zod.message := Zod.Default (Zod.too_small 1) |} ∈ issues) /\
  String.length accents = 600%nat /\
  exists req, Zod.SearchPlacesSchema (Some (Zod.JObj [("query", Zod.JStr accents)])) = inr req.
Proof.
  intros accepted rejected accents. split; [|split; [|split]].
  - destruct (search_places_validation accepted) as (Hiff & Hvalue & _).
    destruct (proj2 Hiff) as [req Hreq].
    { eexists. split; [reflexivity|]. split_and!.
      - eexists. split; [reflexivity|]. simpl. lia.
      - by left.
      - by left.
      - by left. }
    exists req. split; [exact Hreq|].
    exact (proj1 (proj2 (Hvalue _ req eq_refl Hreq)) eq_refl).
  - destruct (search_places_validation rejected) as (_ & _ & Hrej).
    eexists. split; [reflexivity|].
    destruct (Hrej _ eq_refl) as (_ & _ & Hall).
    destruct (Hall _ eq_refl) as (_ & Hshort & _ & _ & Hsmall & _).
    split.
    + apply (Hshort ""); [reflexivity|simpl; lia].
    + apply (Hsmall 0%Q); [reflexivity|]. intros H. by vm_compute in H.
  - vm_compute. reflexivity.
  - apply (proj1 (search_places_validation
                    (Some (Zod.JObj [("query", Zod.JStr accents)])))).
    eexists. split; [reflexivity|]. split_and!.
    + exists accents. split; [reflexivity|]. split.
      * apply Nat.leb_le. vm_compute. reflexivity.
      * apply Nat.leb_le. vm_compute. reflexivity.
    + by left.
    + by left.
    + by left.
Defined.

(** C7, as stated, fails for a body whose [location] is not a string:
    its query is a non-empty string of at most 500 units and it has no
    radius, and yet it is rejected. *)
Lemma search_places_rejects_numeric_location :
  let fields := [("query", Zod.JStr "pizza"); ("location", Zod.JNum 42)] in
  (exists q, Zod.get "query" fields = Some (Zod.JStr q) /\
             (1 <= String.length q)%nat /\ (Js.utf16_length q <= 500)%nat) /\
  Zod.get "radius" fields = None /\
  Zod.SearchPlacesSchema (Some (Zod.JObj fields))
    = inl [{| Zod.path := ["location"];
              Zod.message := Zod.Default (Zod.invalid_type Zod.TString Zod.TNumber) |}] /\
  ~ exists req, Zod.SearchPlacesSchema (Some (Zod.JObj fields)) = inr req.
Proof.
  intros fields. split_and!.
  - exists "pizza". split; [reflexivity|simpl; lia].
  - reflexivity.
  - reflexivity.
  - by intros [req Hreq].
Qed.

(** * Further properties of the code *)

(** ** Rate limiter: keys, quota and stored state *)

Section RateLimitMore.
Import RateLimit.
Variables (windowMs maxRequests : Z).

Lemma rateLimiter_same_entry (ip : string) (now : Z)
    (s1 s2 : gmap string RateLimitStore) :
  s1 !! ip = s2 !! ip ->
  (rateLimiter windowMs maxRequests ip now s1).1
    = (rateLimiter windowMs maxRequests ip now s2).1 /\
  (rateLimiter windowMs maxRequests ip now s1).2 !! ip
    = (rateLimiter windowMs maxRequests ip now s2).2 !! ip.
Proof.
  intros H. unfold rateLimiter. rewrite <- H.
  destruct (s1 !! ip) as [e|] eqn:E; simpl.
  - destruct (now >? resetTime e); simpl; [by rewrite !lookup_insert_eq|].
    destruct (count e >=? maxRequests); simpl; [by rewrite <- H|].
    by rewrite !lookup_insert_eq.
  - by rewrite !lookup_insert_eq.
Qed.

(** The entry written by a check, and what the answer says of it *)
Lemma rateLimiter_cases (ip : string) (now : Z) (s : gmap string RateLimitStore) :
  (exists e, rateLimiter windowMs maxRequests ip now s
             = (Next maxRequests (Z.max 0 (maxRequests - count e)) (resetTime e),
                <[ip := e]> s) /\
             ((window_over s ip now /\ e = {| count := 1; resetTime := now + windowMs |}) \/
              (exists e0, s !! ip = Some e0 /\ now <= resetTime e0 /\
                          count e0 < maxRequests /\
                          e = {| count := count e0 + 1; resetTime := resetTime e0 |}))) \/
  (exists e, s !! ip = Some e /\ now <= resetTime e /\ maxRequests <= count e /\
             rateLimiter windowMs maxRequests ip now s
             = (TooMany (Js.ceil_div (resetTime e - now) 1000) maxRequests (resetTime e), s)).
Proof.
  unfold rateLimiter, window_over.
  destruct (s !! ip) as [e|] eqn:E.
  - destruct (Z.gtb_spec now (resetTime e)).
    + left. eexists. split; [done|]. left. split; [lia|done].
    + destruct (Z.geb_spec (count e) maxRequests).
      * right. exists e. split_and!; try done; lia.
      * left. eexists. split; [done|]. right. exists e. split_and!; try done; lia.
  - left. eexists. split; [done|]. by left.
Qed.

End RateLimitMore.

(** X1.  A check reads and writes the entry of its own key only: its
    answer and the entry it leaves depend on nothing but the entry of
    that key, and the entry of every other key is left as it was. *)
Theorem rate_limit_keys_independent (windowMs maxRequests : Z) (ip : string) (now : Z)
    (s1 s2 : gmap string RateLimit.RateLimitStore) :
  s1 !! ip = s2 !! ip ->
  (RateLimit.rateLimiter windowMs maxRequests ip now s1).1
    = (RateLimit.rateLimiter windowMs maxRequests ip now s2).1 /\
  (RateLimit.rateLimiter windowMs maxRequests ip now s1).2 !! ip
    = (RateLimit.rateLimiter windowMs maxRequests ip now s2).2 !! ip /\
  forall k, k <> ip ->
    (RateLimit.rateLimiter windowMs maxRequests ip now s1).2 !! k = s1 !! k.
Proof.
  intros H. destruct (rateLimiter_same_entry windowMs maxRequests ip now s1 s2 H).
  split_and!; try done. intros k Hk. by apply rateLimiter_other.
Qed.

(** An instance: the same client in an empty store and beside another client. *)
Lemma rate_limit_keys_independent_witness :
  let other : gmap string RateLimit.RateLimitStore :=
    {["10.0.0.9" := {| RateLimit.count := 7; RateLimit.resetTime := 500 |}]} in
  (∅ : gmap string RateLimit.RateLimitStore) !! "10.0.0.7" = other !! "10.0.0.7" /\
  (RateLimit.rateLimiter 60000 100 "10.0.0.7" 10 ∅).1
    = (RateLimit.rateLimiter 60000 100 "10.0.0.7" 10 other).1.
Proof.
  intros other.
  assert (H : (∅ : gmap string RateLimit.RateLimitStore) !! "10.0.0.7" = other !! "10.0.0.7")
    by (vm_compute; reflexivity).
  split; [exact H|].
  exact (proj1 (rate_limit_keys_independent 60000 100 "10.0.0.7" 10 ∅ other H)).
Defined.

(** X2.  What a check answers is what it leaves in the store.  When the
    request goes on, the limit header is the quota, the reset header is
    the reset time of the stored entry and the remaining header is the
    quota minus the stored count, never below 0.  When it is refused,
    the store is untouched, the entry is at or over the quota and not
    yet expired, and the reset header is its reset time. *)
Theorem rate_limit_headers (windowMs maxRequests : Z) (ip : string) (now : Z)
    (s : gmap string RateLimit.RateLimitStore) :
  match RateLimit.rateLimiter windowMs maxRequests ip now s with
  | (RateLimit.Next limit remaining reset, s') =>
      limit = maxRequests /\ 0 <= remaining /\
      exists e, s' !! ip = Some e /\ reset = RateLimit.resetTime e /\
                remaining = Z.max 0 (maxRequests - RateLimit.count e)
  | (RateLimit.TooMany retryAfter limit reset, s') =>
      limit = maxRequests /\ s' = s /\ 0 <= retryAfter /\
      exists e, s !! ip = Some e /\ reset = RateLimit.resetTime e /\
                maxRequests <= RateLimit.count e /\ now <= reset
  end.
Proof.
  destruct (rateLimiter_cases windowMs maxRequests ip now s)
    as [(e & -> & _)|(e & He & Hnow & Hc & ->)].
  - split_and!; [done|lia|]. exists e. by rewrite lookup_insert_eq.
  - split_and!; [done|done| |by exists e].
    pose proof (ceil_div_bounds (RateLimit.resetTime e - now)). lia.
Qed.

Section RateLimitInvariant.
Import RateLimit Tally.
Variables (windowMs maxRequests : Z).

Lemma rateLimiter_entry_ok (ip : string) (now : Z) (s : gmap string RateLimitStore) :
  map_Forall (fun _ e => entry_ok maxRequests e) s ->
  map_Forall (fun _ e => entry_ok maxRequests e)
    (rateLimiter windowMs maxRequests ip now s).2.
Proof.
  intros Hs.
  destruct (rateLimiter_cases windowMs maxRequests ip now s)
    as [(e & -> & He)|(e & _ & _ & _ & ->)]; [|done].
  simpl. apply map_Forall_insert_2; [|done].
  destruct He as [[_ ->]|(e0 & He0 & _ & Hc & ->)]; unfold entry_ok; simpl; [lia|].
  pose proof (Hs _ _ He0) as H0. unfold entry_ok in H0. lia.
Qed.

Lemma run_entry_ok (reqs : list (string * Z)) :
  forall s : gmap string RateLimitStore,
    map_Forall (fun _ e => entry_ok maxRequests e) s ->
    map_Forall (fun _ e => entry_ok maxRequests e) (run windowMs maxRequests reqs s).2.
Proof.
  induction reqs as [|[ip now] reqs IH]; intros s Hs; [done|].
  simpl. pose proof (rateLimiter_entry_ok ip now s Hs) as Hstep.
  destruct (rateLimiter windowMs maxRequests ip now s) as [o s1]. simpl in Hstep.
  specialize (IH s1 Hstep).
  by destruct (run windowMs maxRequests reqs s1) as [os s2].
Qed.

Lemma cleanup_lookup (now : Z) (s : gmap string RateLimitStore) (k : string) :
  cleanupRateLimitStore now s !! k
  = match s !! k with
    | Some e => if now >? resetTime e + 60000 then None else Some e
    | None => None
    end.
Proof.
  unfold cleanupRateLimitStore. rewrite cleanup_fold.
  by destruct (s !! k) as [e|] eqn:Hk.
Qed.

End RateLimitInvariant.

(** X3.  Every stored count stays between 1 and the quota (1 when the
    quota is below 1): if that holds of a store, it holds after any run
    of checks and after a sweep.  It holds of the empty store the
    process starts with. *)
Theorem rate_limit_counts_bounded (windowMs maxRequests : Z)
    (s : gmap string RateLimit.RateLimitStore) :
  map_Forall (fun _ e => Tally.entry_ok maxRequests e) s ->
  (forall reqs,
     map_Forall (fun _ e => Tally.entry_ok maxRequests e)
       (RateLimit.run windowMs maxRequests reqs s).2) /\
  (forall now,
     map_Forall (fun _ e => Tally.entry_ok maxRequests e)
       (RateLimit.cleanupRateLimitStore now s)).
Proof.
  intros Hs. split.
  - intros reqs. by apply run_entry_ok.
  - intros now k e. rewrite cleanup_lookup.
    destruct (s !! k) as [e0|] eqn:E; [|done].
    destruct (now >? _); [done|]. intros [= <-]. by apply (Hs k).
Qed.

(** An instance: three checks from the empty store, then a sweep. *)
Lemma rate_limit_counts_bounded_witness :
  map_Forall (fun _ e => Tally.entry_ok 2 e) (∅ : gmap string RateLimit.RateLimitStore) /\
  map_Forall (fun _ e => Tally.entry_ok 2 e)
    (RateLimit.run 60000 2 [("a", 0); ("a", 1); ("a", 2)] ∅).2.
Proof.
  assert (H : map_Forall (fun _ e => Tally.entry_ok 2 e)
                (∅ : gmap string RateLimit.RateLimitStore))
    by (intros k e Hk; rewrite lookup_empty in Hk; discriminate Hk).
  split; [exact H|].
  exact (proj1 (rate_limit_counts_bounded 60000 2 ∅ H) _).
Defined.

Section QuotaFacts.
Import RateLimit Tally.
Variables (windowMs maxRequests : Z) (k : string).

Lemma admitted_cons (r : string * Z) (o : outcome) (reqs : list (string * Z))
    (outs : list outcome) :
  admitted k (r :: reqs) (o :: outs)
  = (if decide (r.1 = k) then if is_next o then 1 else 0 else 0) + admitted k reqs outs.
Proof.
  unfold admitted. simpl zip. rewrite filter_cons. simpl.
  destruct (decide (r.1 = k)) as [Hk|Hk].
  - destruct (is_next o) eqn:Ho.
    + rewrite decide_True by done. simpl length. lia.
    + rewrite decide_False by (intros [_ ?]; done). lia.
  - rewrite decide_False by (intros [? _]; done). lia.
Qed.

(** Inside a window that already counts [c] requests, a run lets
    through as many requests on [k] as the quota still has room for. *)
Lemma run_admits (reqs : list (string * Z)) :
  forall (s : gmap string RateLimitStore) (c R : Z),
    s !! k = Some {| count := c; resetTime := R |} ->
    Forall (fun r => r.1 = k -> r.2 <= R) reqs ->
    exists outs s',
      run windowMs maxRequests reqs s = (outs, s') /\
      admitted k reqs outs = Z.max 0 (Z.min (hits k reqs) (maxRequests - c)) /\
      s' !! k = Some {| count := c + admitted k reqs outs; resetTime := R |}.
Proof.
  induction reqs as [|[ip now] reqs IH]; intros s c R Hk Hin.
  - exists [], s. split; [done|]. unfold admitted, hits. simpl.
    split; [lia|]. rewrite Hk. do 2 f_equal; lia.
  - apply Forall_cons in Hin as [Hnow Hin]. simpl in Hnow.
    pose proof (hits_nonneg k reqs) as Hpos. simpl run.
    destruct (decide (ip = k)) as [->|Hne].
    + destruct (Z_lt_le_dec c maxRequests) as [Hlt|Hge].
      * pose proof (rateLimiter_counts windowMs maxRequests k now s _ Hk
                      (Hnow eq_refl) Hlt) as Hstep.
        simpl in Hstep. rewrite Hstep.
        destruct (IH (<[k:={| count := c + 1; resetTime := R |}]> s) (c + 1) R)
          as (outs & s' & Hrun & Hadm & Hk'); [by rewrite lookup_insert_eq|done|].
        rewrite Hrun. eexists _, s'. split; [done|].
        rewrite admitted_cons, hits_cons. simpl. rewrite !decide_True by done.
        split; [lia|]. rewrite Hk'. do 2 f_equal; lia.
      * pose proof (rateLimiter_denies windowMs maxRequests k now s _ Hk
                      (Hnow eq_refl) Hge) as Hstep.
        simpl in Hstep. rewrite Hstep.
        destruct (IH s c R) as (outs & s' & Hrun & Hadm & Hk'); [done|done|].
        rewrite Hrun. eexists _, s'. split; [done|].
        rewrite admitted_cons, hits_cons. simpl. rewrite !decide_True by done.
        split; [lia|]. rewrite Hk'. do 2 f_equal; lia.
    + pose proof (rateLimiter_other windowMs maxRequests k ip now s Hne) as Hoth.
      destruct (rateLimiter windowMs maxRequests ip now s) as [o s1] eqn:Hstep.
      simpl in Hoth.
      destruct (IH s1 c R) as (outs & s' & Hrun & Hadm & Hk'); [by rewrite Hoth|done|].
      rewrite Hrun. eexists _, s'. split; [done|].
      rewrite admitted_cons, hits_cons. simpl. rewrite !decide_False by done.
      split; [lia|]. rewrite Hk'. do 2 f_equal; lia.
Qed.

End QuotaFacts.

(** X4.  The quota of a window.  When a check on [k] opens a window at
    [t0], then of that check and the [n] later requests made on [k] up
    to the end of the window (in any order, mixed with requests on other
    keys) exactly [min (1 + n) maxRequests] are let through, and the
    stored count is that number; with a quota below 1 the opening check
    is still let through, and it alone. *)
Theorem rate_limit_quota (windowMs maxRequests : Z) (k : string)
    (s : gmap string RateLimit.RateLimitStore) (t0 : Z) (rest : list (string * Z)) :
  RateLimit.window_over s k t0 ->
  Forall (fun r => r.1 = k -> r.2 <= t0 + windowMs) rest ->
  exists outs s',
    RateLimit.run windowMs maxRequests ((k, t0) :: rest) s = (outs, s') /\
    Tally.admitted k ((k, t0) :: rest) outs
      = Z.min (1 + RateLimit.hits k rest) (Z.max 1 maxRequests) /\
    s' !! k = Some {| RateLimit.count := Tally.admitted k ((k, t0) :: rest) outs;
                      RateLimit.resetTime := t0 + windowMs |}.
Proof.
  intros Hfresh Hin. simpl.
  rewrite (rateLimiter_fresh windowMs maxRequests k t0 s Hfresh).
  destruct (run_admits windowMs maxRequests k rest
              (<[k:={| RateLimit.count := 1; RateLimit.resetTime := t0 + windowMs |}]> s)
              1 (t0 + windowMs))
    as (outs & s' & Hrun & Hadm & Hk); [by rewrite lookup_insert_eq|done|].
  rewrite Hrun. eexists _, s'. split; [done|].
  rewrite admitted_cons. simpl. rewrite decide_True by done.
  pose proof (hits_nonneg k rest). split; [lia|]. by rewrite Hk.
Qed.

(** An instance: a quota of 2, four requests of one client in a window. *)
Lemma rate_limit_quota_witness :
  RateLimit.window_over ∅ "a" 0 /\
  exists outs s',
    RateLimit.run 60000 2 [("a", 0); ("a", 5); ("b", 6); ("a", 7); ("a", 60000)] ∅
      = (outs, s') /\
    Tally.admitted "a" [("a", 0); ("a", 5); ("b", 6); ("a", 7); ("a", 60000)] outs = 2.
Proof.
  assert (H1 : RateLimit.window_over ∅ "a" 0) by (vm_compute; exact I).
  assert (H2 : Forall (fun r : string * Z => r.1 = "a" -> r.2 <= 0 + 60000)
                 [("a", 5); ("b", 6); ("a", 7); ("a", 60000)])
    by (repeat constructor; simpl; lia).
  split; [exact H1|].
  destruct (rate_limit_quota 60000 2 "a" ∅ 0 _ H1 H2) as (outs & s' & Hrun & Hadm & _).
  exists outs, s'. split; [exact Hrun|]. rewrite Hadm. reflexivity.
Defined.

(** ** The sweep and later checks *)

Section SweepFacts.
Import RateLimit Tally.
Variables (windowMs maxRequests : Z).

Lemma pruned_step (t : Z) (ip : string) (now : Z) (s' s : gmap string RateLimitStore) :
  pruned t s' s -> t <= now ->
  (rateLimiter windowMs maxRequests ip now s').1
    = (rateLimiter windowMs maxRequests ip now s).1 /\
  pruned t (rateLimiter windowMs maxRequests ip now s').2
           (rateLimiter windowMs maxRequests ip now s).2.
Proof.
  intros Hp Hnow.
  assert (Hip : (rateLimiter windowMs maxRequests ip now s').1
                  = (rateLimiter windowMs maxRequests ip now s).1 /\
                (rateLimiter windowMs maxRequests ip now s').2 !! ip
                  = (rateLimiter windowMs maxRequests ip now s).2 !! ip).
  { destruct (Hp ip) as [Heq|(Hnone & e & He & Hold)].
    - by apply rateLimiter_same_entry.
    - rewrite (rateLimiter_fresh windowMs maxRequests ip now s')
        by (unfold window_over; by rewrite Hnone).
      rewrite (rateLimiter_fresh windowMs maxRequests ip now s)
        by (unfold window_over; rewrite He; lia).
      simpl. by rewrite !lookup_insert_eq. }
  destruct Hip as [Hout Hent]. split; [done|]. intros k.
  destruct (decide (k = ip)) as [->|Hk]; [by left|].
  rewrite !(rateLimiter_other windowMs maxRequests k ip now) by done. apply Hp.
Qed.

Lemma pruned_run (t : Z) (reqs : list (string * Z)) :
  forall s' s : gmap string RateLimitStore,
    pruned t s' s -> Forall (fun r => t <= r.2) reqs ->
    (run windowMs maxRequests reqs s').1 = (run windowMs maxRequests reqs s).1 /\
    pruned t (run windowMs maxRequests reqs s').2 (run windowMs maxRequests reqs s).2.
Proof.
  induction reqs as [|[ip now] reqs IH]; intros s' s Hp Hin; [done|].
  apply Forall_cons in Hin as [Hnow Hin]. simpl in Hnow. simpl.
  destruct (pruned_step t ip now s' s Hp Hnow) as [Hout Hp'].
  destruct (rateLimiter windowMs maxRequests ip now s') as [o' s1'].
  destruct (rateLimiter windowMs maxRequests ip now s) as [o s1].
  simpl in Hout, Hp'. subst o'.
  destruct (IH s1' s1 Hp' Hin) as [Houts Hp''].
  destruct (run windowMs maxRequests reqs s1') as [os' s2'].
  destruct (run windowMs maxRequests reqs s1) as [os s2].
  simpl in *. by subst os'.
Qed.

Lemma cleanup_pruned (now : Z) (s : gmap string RateLimitStore) :
  pruned now (cleanupRateLimitStore now s) s.
Proof.
  intros k. rewrite cleanup_lookup. destruct (s !! k) as [e|] eqn:E; [|by left].
  destruct (Z.gtb_spec now (resetTime e + 60000)); [|by left].
  right. split; [done|]. exists e. split; [done|lia].
Qed.

End SweepFacts.

(** X5.  A sweep changes no later decision: for requests made at or
    after the time of the sweep, every answer (allow or deny, with its
    headers) is the same with the swept store as with the store left as
    it was. *)
Theorem cleanup_changes_no_decision (windowMs maxRequests : Z) (sweep : Z)
    (reqs : list (string * Z)) (s : gmap string RateLimit.RateLimitStore) :
  Forall (fun r => sweep <= r.2) reqs ->
  (RateLimit.run windowMs maxRequests reqs (RateLimit.cleanupRateLimitStore sweep s)).1
  = (RateLimit.run windowMs maxRequests reqs s).1.
Proof.
  intros Hin.
  apply (pruned_run windowMs maxRequests sweep reqs); [apply cleanup_pruned|done].
Qed.

(** An instance: a client over its quota, a sweep five minutes later, two more checks. *)
Lemma cleanup_changes_no_decision_witness :
  let s := (RateLimit.run 60000 1 [("a", 0); ("a", 1); ("b", 250000)] ∅).2 in
  Forall (fun r : string * Z => 300000 <= r.2) [("a", 300000); ("b", 300001)] /\
  (RateLimit.run 60000 1 [("a", 300000); ("b", 300001)]
     (RateLimit.cleanupRateLimitStore 300000 s)).1
  = (RateLimit.run 60000 1 [("a", 300000); ("b", 300001)] s).1.
Proof.
  intros s.
  assert (H : Forall (fun r : string * Z => 300000 <= r.2) [("a", 300000); ("b", 300001)])
    by (repeat constructor; simpl; lia).
  split; [exact H|].
  exact (cleanup_changes_no_decision 60000 1 300000 _ s H).
Defined.

(** X6.  The sweep only removes: what it keeps it keeps unchanged; an
    entry not yet a minute past its reset time is never removed;
    sweeping twice at one time is sweeping once; and a sweep followed by
    a later sweep leaves what the later sweep alone would leave. *)
Theorem cleanup_shrinks (now later : Z) (s : gmap string RateLimit.RateLimitStore) :
  RateLimit.cleanupRateLimitStore now s ⊆ s /\
  (forall k e, s !! k = Some e -> now <= RateLimit.resetTime e + 60000 ->
     RateLimit.cleanupRateLimitStore now s !! k = Some e) /\
  RateLimit.cleanupRateLimitStore now (RateLimit.cleanupRateLimitStore now s)
    = RateLimit.cleanupRateLimitStore now s /\
  (now <= later ->
   RateLimit.cleanupRateLimitStore later (RateLimit.cleanupRateLimitStore now s)
     = RateLimit.cleanupRateLimitStore later s).
Proof.
  split_and!.
  - apply map_subseteq_spec. intros k e. rewrite cleanup_lookup.
    destruct (s !! k) as [e0|]; [|done]. by destruct (now >? _).
  - intros k e He Hnow. rewrite cleanup_lookup, He.
    by destruct (Z.gtb_spec now (RateLimit.resetTime e + 60000)); [lia|].
  - apply map_eq. intros k. rewrite !cleanup_lookup.
    destruct (s !! k) as [e|]; [|done].
    destruct (now >? RateLimit.resetTime e + 60000) eqn:E; [done|]. by rewrite E.
  - intros Hle. apply map_eq. intros k. rewrite !cleanup_lookup.
    destruct (s !! k) as [e|]; [|done].
    destruct (Z.gtb_spec now (RateLimit.resetTime e + 60000)); [|done].
    by destruct (Z.gtb_spec later (RateLimit.resetTime e + 60000)); [|lia].
Qed.

(** An instance: sweeps at one and at five minutes. *)
Lemma cleanup_shrinks_witness :
  let s : gmap string RateLimit.RateLimitStore :=
    {["a" := {| RateLimit.count := 3; RateLimit.resetTime := 1000 |}]} in
  RateLimit.cleanupRateLimitStore 300000 (RateLimit.cleanupRateLimitStore 60000 s)
  = RateLimit.cleanupRateLimitStore 300000 s.
Proof.
  intros s.
  exact (proj2 (proj2 (proj2 (cleanup_shrinks 60000 300000 s))) ltac:(lia)).
Defined.

(** X7.  The client key is never empty: it is the [x-forwarded-for]
    header when that is a non-empty string, else the [x-real-ip] header
    when that is one, else ["unknown"]; so all requests that carry
    neither header are counted under the one key ["unknown"]. *)
Theorem client_ip_cases (x_forwarded_for x_real_ip : option string) :
  let ip := RateLimit.client_ip x_forwarded_for x_real_ip in
  Js.truthy ip = true /\
  (forall a, x_forwarded_for = Some a -> Js.truthy a = true -> ip = a) /\
  (Js.truthy_opt x_forwarded_for = false ->
   forall b, x_real_ip = Some b -> Js.truthy b = true -> ip = b) /\
  (Js.truthy_opt x_forwarded_for = false -> Js.truthy_opt x_real_ip = false ->
   ip = "unknown").
Proof.
  unfold RateLimit.client_ip, Js.or_else, Js.or_undef.
  destruct x_forwarded_for as [[|c a]|], x_real_ip as [[|d b]|]; simpl;
    split_and!; try done; try (by intros ? [= <-]); try (by intros _ ? [= <-]).
Qed.

(** Instances: both headers, an empty first header, no header. *)
Lemma client_ip_cases_witness :
  RateLimit.client_ip (Some "1.2.3.4") (Some "5.6.7.8") = "1.2.3.4" /\
  RateLimit.client_ip (Some "") (Some "5.6.7.8") = "5.6.7.8" /\
  RateLimit.client_ip None None = "unknown".
Proof.
  split; [exact (proj1 (proj2 (client_ip_cases (Some "1.2.3.4") (Some "5.6.7.8")))
                   "1.2.3.4" eq_refl eq_refl)|].
  split; [exact (proj1 (proj2 (proj2 (client_ip_cases (Some "") (Some "5.6.7.8"))))
                   eq_refl "5.6.7.8" eq_refl eq_refl)|].
  exact (proj2 (proj2 (proj2 (client_ip_cases None None))) eq_refl eq_refl).
Defined.

(** ** Error handler and gates *)

(** X8.  Every reply of the error handler is a failure envelope whose
    HTTP status equals the [statusCode] of its body and is 400, 502 or
    500.  It is 400 with details, one per issue and in their order,
    exactly for a validation error, whatever its message says; and a 500
    reply carries the fixed message, never the message of the error. *)
Theorem error_handler_envelope (err : Http.JsError) :
  let r := Http.errorHandler err in
  Http.success r = false /\
  Http.statusCode (Http.body r) = Http.status r /\
  (Http.status r = 400 \/ Http.status r = 502 \/ Http.status r = 500) /\
  (Http.status r = 400 <-> is_Some (Http.zod_issues err)) /\
  (Http.status r = 400 <-> is_Some (Http.details (Http.body r))) /\
  (forall issues, Http.zod_issues err = Some issues ->
     exists ds, Http.details (Http.body r) = Some ds /\
                length ds = length issues /\
                map Http.detail_message ds = map Zod.message issues) /\
  (Http.status r = 500 ->
     Http.message (Http.body r) = "An unexpected error occurred" /\
     Http.error (Http.body r) = "INTERNAL_SERVER_ERROR") /\
  (Http.status r = 502 ->
     Http.message (Http.body r) = Http.err_message err /\
     Js.includes "Google Maps API error" (Http.err_message err) = true).
Proof.
  unfold Http.errorHandler.
  destruct (Http.zod_issues err) as [issues|] eqn:Hz; simpl.
  - split_and!; try done.
    + by left.
    + intros ? [= <-]. eexists. split; [done|]. by rewrite length_map, map_map.
  - destruct (Js.includes _ _) eqn:Hm; simpl.
    + split_and!; try done; try (by right; left);
        split; try done; by intros [? ?].
    + split_and!; try done; try (by right; right);
        split; try done; by intros [? ?].
Qed.

(** Instances: a validation error whose message holds the marker, and a plain error. *)
Lemma error_handler_envelope_witness :
  let zod := {| Http.zod_issues :=
                  Some [{| Zod.path := ["query"]; Zod.message := Zod.Custom "Query is required" |}];
                Http.err_message := "Google Maps API error" |} in
  Http.status (Http.errorHandler zod) = 400 /\
  Http.message (Http.body (Http.errorHandler (Http.Error "boom")))
    = "An unexpected error occurred".
Proof.
  intros zod. split.
  - destruct (error_handler_envelope zod) as (_ & _ & _ & Hzod & _).
    apply Hzod. by eexists.
  - destruct (error_handler_envelope (Http.Error "boom"))
      as (_ & _ & _ & _ & _ & _ & Hplain & _).
    apply Hplain. reflexivity.
Defined.

(** X9.  With a key configured, the gate lets a request through only
    when the key it provides equals the configured key: it passes
    exactly when no key is configured or the provided key is the
    configured one, answers 401 exactly when a key is configured and
    none is provided, and 403 otherwise.  The query parameter is looked
    at only when the header provides nothing. *)
Theorem api_key_gate_decision (API_KEY authHeader query : option string) :
  let provided := Auth.provided_key authHeader query in
  (Auth.apiKeyAuth API_KEY authHeader query = Auth.PassThrough <->
     Js.truthy_opt API_KEY = false \/ provided = API_KEY) /\
  ((exists r, Auth.apiKeyAuth API_KEY authHeader query = Auth.Rejected r /\
              Http.status r = 401) <->
     Js.truthy_opt API_KEY = true /\ Js.truthy_opt provided = false) /\
  ((exists r, Auth.apiKeyAuth API_KEY authHeader query = Auth.Rejected r /\
              Http.status r = 403) <->
     Js.truthy_opt API_KEY = true /\ Js.truthy_opt provided = true /\
     provided <> API_KEY) /\
  (forall h, authHeader = Some h ->
     Js.truthy (Js.replace_first "Bearer " "" h) = true ->
     forall query', Auth.apiKeyAuth API_KEY authHeader query'
                    = Auth.apiKeyAuth API_KEY authHeader query).
Proof.
  intros provided. unfold Auth.apiKeyAuth. fold provided.
  split_and!.
  - destruct (Js.truthy_opt API_KEY) eqn:Hk; simpl; [|split; [by left|done]].
    destruct (Js.truthy_opt provided) eqn:Hp; simpl.
    + destruct (decide (provided = API_KEY)) as [He|Hne].
      * rewrite bool_decide_eq_true_2 by done. simpl. split; [by right|done].
      * rewrite bool_decide_eq_false_2 by done. simpl.
        split; [done|]. intros [?|?]; done.
    + split; [done|]. intros [?|He]; [done|]. rewrite He in Hp. congruence.
  - destruct (Js.truthy_opt API_KEY) eqn:Hk; simpl;
      [|split; [by intros (? & ? & ?)|by intros [? ?]]].
    destruct (Js.truthy_opt provided) eqn:Hp; simpl.
    + split; [|by intros [? ?]].
      destruct (bool_decide (provided = API_KEY)); simpl.
      * by intros (? & ? & ?).
      * by intros (? & [= <-] & ?).
    + split; [done|]. intros _. by eexists.
  - destruct (Js.truthy_opt API_KEY) eqn:Hk; simpl;
      [|split; [by intros (? & ? & ?)|by intros [? ?]]].
    destruct (Js.truthy_opt provided) eqn:Hp; simpl.
    + destruct (decide (provided = API_KEY)) as [He|Hne].
      * rewrite bool_decide_eq_true_2 by done. simpl.
        split; [by intros (? & ? & ?)|by intros (_ & _ & ?)].
      * rewrite bool_decide_eq_false_2 by done. simpl.
        split; [done|]. intros _. by eexists.
    + split; [by intros (? & [= <-] & ?)|by intros (_ & ? & _)].
  - intros h -> Hh query'. subst provided.
    assert (Hp : forall q, Auth.provided_key (Some h) q
                           = Some (Js.replace_first "Bearer " "" h)).
    { intros q. unfold Auth.provided_key, Js.or_undef, fmap, option_fmap, option_map.
      by rewrite Hh. }
    by rewrite !Hp.
Qed.

(** Instances on the key [secret123]: the right token passes, a wrong one is answered 403. *)
Lemma api_key_gate_decision_witness :
  Auth.apiKeyAuth (Some "secret123") (Some "Bearer secret123") None = Auth.PassThrough /\
  exists r, Auth.apiKeyAuth (Some "secret123") None (Some "guess") = Auth.Rejected r /\
            Http.status r = 403.
Proof.
  split.
  - apply (proj1 (api_key_gate_decision (Some "secret123") (Some "Bearer secret123") None)).
    right. reflexivity.
  - apply (proj1 (proj2 (proj2 (api_key_gate_decision (Some "secret123") None
                                  (Some "guess"))))).
    split; [reflexivity|]. split; [reflexivity|]. intros H. discriminate H.
Defined.

Lemma endsWith_app (a suffix : string) : Routes.endsWith suffix (a ++ suffix) = true.
Proof.
  unfold Routes.endsWith. rewrite string_app_length.
  replace (String.length a + String.length suffix - String.length suffix)%nat
    with (String.length a) by lia.
  rewrite drop_app, String.eqb_refl, andb_true_r.
  apply Nat.leb_le. lia.
Qed.

(** X10.  The order of the gates on [/api/maps/*].  The rate limiter
    runs first: a request it refuses is answered 429 whatever its path
    and credentials, and a request it lets through is counted in the
    store even when the key gate then rejects it.  The key gate decides
    only for requests the limiter let through, and a path ending in
    [/health] skips the key gate but not the limiter.  A request the
    key gate rejects is not routed, but the 401 or 403 response of
    [apiKeyAuth] never reaches the client: the wrapper drops it, and the
    client is answered INTERNAL_SERVER_ERROR with status 500 by the
    error handler.  So the gates refuse with status 429 or 500 only. *)
Theorem api_maps_gate_order (windowMs maxRequests : Z) (API_KEY : option string)
    (ip : string) (now : Z) (path : string) (authHeader query : option string)
    (s : gmap string RateLimit.RateLimitStore) :
  let limiter := RateLimit.rateLimiter windowMs maxRequests ip now s in
  let gate :=
    Routes.api_maps_gate windowMs maxRequests API_KEY ip now path authHeader query s in
  gate.2 = limiter.2 /\
  (RateLimit.is_next limiter.1 = false ->
     gate.1 = Routes.Refused Routes.too_many_requests /\ gate.2 = s) /\
  (RateLimit.is_next limiter.1 = true ->
     forall a, path = a ++ "/health" -> gate.1 = Routes.Routed) /\
  (RateLimit.is_next limiter.1 = true ->
     Routes.endsWith "/health" path = false ->
     gate.1 = match Auth.apiKeyAuth API_KEY authHeader query with
              | Auth.PassThrough => Routes.Routed
              | Auth.Rejected _ =>
                  Routes.Refused
                    (Http.fail "INTERNAL_SERVER_ERROR" "An unexpected error occurred"
                       500 None)
              end) /\
  (forall r, gate.1 = Routes.Refused r ->
     (Http.status r = 429 \/ Http.status r = 500) /\
     Http.status r <> 401 /\ Http.status r <> 403).
Proof.
  intros limiter gate. unfold gate, Routes.api_maps_gate. fold limiter.
  assert (Hh : match limiter with
               | (RateLimit.TooMany _ _ _, s') => s' = s
               | _ => True
               end).
  { unfold limiter.
    by destruct (rateLimiter_cases windowMs maxRequests ip now s)
      as [(e & -> & _)|(e & _ & _ & _ & ->)]. }
  destruct limiter as [[l r t|ra l t] s']; simpl.
  - unfold Routes.auth_unless_health.
    split_and!.
    + by destruct (Routes.endsWith _ _); [|destruct (Auth.apiKeyAuth _ _ _)].
    + done.
    + intros _ a ->. by rewrite endsWith_app.
    + intros _ ->. by destruct (Auth.apiKeyAuth _ _ _).
    + intros r0. destruct (Routes.endsWith _ _); [done|].
      destruct (Auth.apiKeyAuth _ _ _); [done|].
      intros [= <-]. split; [by right|done].
  - subst s'. split_and!; try done.
    intros r0 [= <-]. split; [by left|done].
Qed.

(** An instance: with a quota of 1, a request with a wrong key is
    answered 500 and counted, and the next request, with the right key,
    is answered 429. *)
Lemma api_maps_gate_order_witness :
  let first := Routes.api_maps_gate 60000 1 (Some "secret123") "10.0.0.7" 0
                 "/api/maps/search-places" (Some "Bearer wrong") None ∅ in
  let second := Routes.api_maps_gate 60000 1 (Some "secret123") "10.0.0.7" 5
                  "/api/maps/search-places" (Some "Bearer secret123") None first.2 in
  first.1 = Routes.Refused
              (Http.fail "INTERNAL_SERVER_ERROR" "An unexpected error occurred" 500 None) /\
  second.1 = Routes.Refused Routes.too_many_requests.
Proof.
  intros first second. split.
  - exact (proj1 (proj2 (proj2 (proj2 (api_maps_gate_order 60000 1 (Some "secret123")
             "10.0.0.7" 0 "/api/maps/search-places" (Some "Bearer wrong") None ∅))))
             eq_refl eq_refl).
  - exact (proj1 (proj1 (proj2 (api_maps_gate_order 60000 1 (Some "secret123")
             "10.0.0.7" 5 "/api/maps/search-places" (Some "Bearer secret123") None
             first.2)) eq_refl)).
Defined.

(** ** Normalised places *)

(** X11.  Name, address and photo of a normalised place.  The name and
    the address are never empty: the name is the provider's when that is
    a non-empty string and ["Unknown"] otherwise; the address is the
    formatted address when non-empty, else the vicinity when non-empty,
    else ["Address not available"].  The photo link is present exactly
    when the provider sent at least one photo, and is built from the
    first one.  The location holds the numbers of the coordinates, an
    accessor being called. *)
Theorem place_name_address_photo (apiKey : string) (number_to_string : Q -> string)
    (place : Maps.Place) :
  let r := Maps.formatPlaceResult apiKey number_to_string place in
  Js.truthy (Maps.pr_name r) = true /\
  Js.truthy (Maps.address r) = true /\
  (forall n, Maps.name place = Some n -> Js.truthy n = true -> Maps.pr_name r = n) /\
  (Js.truthy_opt (Maps.name place) = false -> Maps.pr_name r = "Unknown") /\
  (forall a, Maps.formatted_address place = Some a -> Js.truthy a = true ->
     Maps.address r = a) /\
  (Js.truthy_opt (Maps.formatted_address place) = false ->
   forall v, Maps.vicinity place = Some v -> Js.truthy v = true -> Maps.address r = v) /\
  (Js.truthy_opt (Maps.formatted_address place) = false ->
   Js.truthy_opt (Maps.vicinity place) = false ->
   Maps.address r = "Address not available") /\
  (forall photo more, Maps.photos place = Some (photo :: more) ->
     Maps.photoUrl r
     = Some ("https://maps.googleapis.com/maps/api/place/photo?maxwidth=400&photo_reference="
             ++ Maps.photo_reference photo ++ "&key=" ++ apiKey)) /\
  (Maps.photos place = None \/ Maps.photos place = Some [] -> Maps.photoUrl r = None) /\
  (forall la ln, Maps.geometry place = Some {| Maps.location :=
                                                 Some {| Maps.lat := la; Maps.lng := ln |} |} ->
     Maps.pr_location r = (Maps.coord_value la, Maps.coord_value ln)) /\
  (Maps.geometry place ≫= Maps.location = None -> Maps.pr_location r = (None, None)).
Proof.
  intros r. unfold r, Maps.formatPlaceResult. simpl. split_and!.
  - unfold Js.or_else. by destruct (Maps.name place) as [[|? ?]|].
  - unfold Js.or_else, Js.or_undef.
    by destruct (Maps.formatted_address place) as [[|? ?]|],
                (Maps.vicinity place) as [[|? ?]|].
  - intros n -> Hn. unfold Js.or_else. by rewrite Hn.
  - unfold Js.or_else. by destruct (Maps.name place) as [[|? ?]|].
  - intros a -> Ha. destruct a; [done|]. done.
  - intros Hf v -> Hv. destruct v; [done|].
    by destruct (Maps.formatted_address place) as [[|? ?]|].
  - unfold Js.or_else, Js.or_undef.
    by destruct (Maps.formatted_address place) as [[|? ?]|],
                (Maps.vicinity place) as [[|? ?]|].
  - by intros photo more ->.
  - by intros [-> | ->].
  - by intros la ln ->.
  - by intros ->.
Qed.

(** An instance: a place with an empty name, only a vicinity, and two photos. *)
Lemma place_name_address_photo_witness :
  let place :=
    {| Maps.place_id := Some "ChIJ1"; Maps.name := Some "";
       Maps.formatted_address := None; Maps.vicinity := Some "Jl. Sudirman";
       Maps.geometry := None; Maps.rating := None;
       Maps.user_ratings_total := None; Maps.types := None; Maps.business_status := None;
       Maps.price_level := None;
       Maps.photos := Some [{| Maps.photo_reference := "Aap_1" |};
                            {| Maps.photo_reference := "Aap_2" |}];
       Maps.formatted_phone_number := None;
       Maps.website := None; Maps.opening_hours := None; Maps.reviews := None |} in
  let r := Maps.formatPlaceResult "KEY" (fun _ => "0") place in
  Maps.pr_name r = "Unknown" /\ Maps.address r = "Jl. Sudirman" /\
  Maps.photoUrl r
  = Some "https://maps.googleapis.com/maps/api/place/photo?maxwidth=400&photo_reference=Aap_1&key=KEY".
Proof.
  intros place r.
  destruct (place_name_address_photo "KEY" (fun _ => "0") place)
    as (_ & _ & _ & Hname & _ & Hvic & _ & Hphoto & _).
  split; [exact (Hname eq_refl)|].
  split; [exact (Hvic eq_refl _ eq_refl eq_refl)|].
  exact (Hphoto _ _ eq_refl).
Defined.

(** ** Percent-encoding *)

Section EncodeFacts.
Import Maps.

Lemma hex_digit_inj (n m : N) :
  (n < 16)%N -> (m < 16)%N -> hex_digit n = hex_digit m -> n = m.
Proof.
  intros Hn Hm Heq.
  assert (Hall : forallb (fun i => forallb (fun j =>
                   implb (Ascii.eqb (hex_digit (N.of_nat i)) (hex_digit (N.of_nat j)))
                         (Nat.eqb i j)) (seq 0 16)) (seq 0 16) = true)
    by (vm_compute; reflexivity).
  rewrite List.forallb_forall in Hall.
  specialize (Hall (N.to_nat n) ltac:(apply in_seq; lia)).
  rewrite List.forallb_forall in Hall.
  specialize (Hall (N.to_nat m) ltac:(apply in_seq; lia)).
  rewrite !N2Nat.id, Heq, Ascii.eqb_refl in Hall. simpl in Hall.
  apply Nat.eqb_eq in Hall. lia.
Qed.

Lemma percent_escape_inj (c d : ascii) : percent_escape c = percent_escape d -> c = d.
Proof.
  unfold percent_escape. intros [= H1 H2].
  pose proof (N_ascii_bounded c) as Hc. pose proof (N_ascii_bounded d) as Hd.
  apply hex_digit_inj in H1; [|apply N.Div0.div_lt_upper_bound; lia..].
  apply hex_digit_inj in H2; [|apply N.mod_lt; lia..].
  rewrite <- (ascii_N_embedding c), <- (ascii_N_embedding d). f_equal.
  rewrite (N.div_mod (N_of_ascii c) 16), (N.div_mod (N_of_ascii d) 16) by lia.
  by rewrite H1, H2.
Qed.

Lemma encode_cons (c : ascii) (s : string) :
  encodeURIComponent (String c s) =
    if is_uri_unescaped c then String c (encodeURIComponent s)
    else String "%" (String (hex_digit (N_of_ascii c / 16))
           (String (hex_digit (N_of_ascii c mod 16)) (encodeURIComponent s))).
Proof. simpl. by destruct (is_uri_unescaped c). Qed.

Lemma unescaped_not_percent (c : ascii) : is_uri_unescaped c = true -> c <> "%"%char.
Proof. intros H ->. by vm_compute in H. Qed.

Lemma encodeURIComponent_inj (s t : string) :
  encodeURIComponent s = encodeURIComponent t -> s = t.
Proof.
  revert t. induction s as [|c s IH]; intros [|d t].
  - done.
  - rewrite encode_cons. simpl. by destruct (is_uri_unescaped d).
  - rewrite encode_cons. simpl. by destruct (is_uri_unescaped c).
  - rewrite !encode_cons.
    destruct (is_uri_unescaped c) eqn:Hc, (is_uri_unescaped d) eqn:Hd.
    + intros [= -> H]. f_equal. by apply IH.
    + intros [= -> _]. by destruct (unescaped_not_percent _ Hc).
    + intros [= <- _]. by destruct (unescaped_not_percent _ Hd).
    + intros [= H1 H2 H]. f_equal; [|by apply IH].
      apply percent_escape_inj. unfold percent_escape. by rewrite H1, H2.
Qed.

End EncodeFacts.

Section EncodeAlphabet.
Import Maps.

Lemma hex_digits_unescaped (c : ascii) :
  is_uri_unescaped (hex_digit (N_of_ascii c / 16)) = true /\
  is_uri_unescaped (hex_digit (N_of_ascii c mod 16)) = true.
Proof. destruct c as [[] [] [] [] [] [] [] []]; vm_compute; split; reflexivity. Qed.

Lemma encode_excludes (c : ascii) (s : string) :
  is_uri_unescaped c = false -> c <> "%"%char ->
  Js.includes (String c "") (encodeURIComponent s) = false.
Proof.
  intros Hc Hp. induction s as [|d s IH]; [done|].
  rewrite encode_cons.
  assert (Hne : forall x, is_uri_unescaped x = true -> Ascii.eqb x c = false).
  { intros x Hx. apply Ascii.eqb_neq. intros ->. congruence. }
  destruct (is_uri_unescaped d) eqn:Hd.
  - by rewrite includes_single, (Hne d Hd), IH.
  - destruct (hex_digits_unescaped d) as [H1 H2].
    rewrite !includes_single, (Hne _ H1), (Hne _ H2), IH.
    assert (Ascii.eqb "%" c = false) as -> by (apply Ascii.eqb_neq; congruence).
    done.
Qed.

Lemma string_app_inv_head (p x y : string) : p ++ x = p ++ y -> x = y.
Proof.
  induction p as [|c p IH]; [done|]. rewrite !string_app_cons. intros [= H]. by apply IH.
Qed.

Lemma string_app_inv_tail (x y m : string) : x ++ m = y ++ m -> x = y.
Proof.
  intros H.
  assert (Hl : String.length x = String.length y).
  { apply (f_equal String.length) in H. rewrite !string_app_length in H. lia. }
  revert y H Hl. induction x as [|c x IH]; intros [|d y] H Hl; try done.
  rewrite !string_app_cons in H. injection H as -> H. f_equal. apply IH; [done|].
  simpl in Hl. lia.
Qed.

(** Two texts cut at the first occurrence of a character are cut at the
    same place. *)
Lemma split_at_first (c : ascii) (a a' r r' : string) :
  Js.includes (String c "") a = false -> Js.includes (String c "") a' = false ->
  a ++ String c r = a' ++ String c r' -> a = a' /\ r = r'.
Proof.
  revert a'. induction a as [|x a IH]; intros [|d a'] Ha Ha'.
  - change (String c r = String c r' -> "" = "" /\ r = r'). by intros [= ->].
  - change ("" ++ String c r) with (String c r). rewrite string_app_cons.
    intros [= -> _]. rewrite includes_single, Ascii.eqb_refl in Ha'. done.
  - change ("" ++ String c r') with (String c r'). rewrite string_app_cons.
    intros [= -> _]. rewrite includes_single, Ascii.eqb_refl in Ha. done.
  - rewrite !string_app_cons. intros [= -> H].
    rewrite includes_single in Ha, Ha'.
    apply orb_false_elim in Ha as [_ Ha]. apply orb_false_elim in Ha' as [_ Ha'].
    destruct (IH a' Ha Ha' H) as [-> ->]. done.
Qed.

(** An encoded text followed by a parameter: the text can be read back. *)
Lemma encoded_pair_inj (tag o t o' t' m : string) :
  encodeURIComponent o ++ String "&" (tag ++ encodeURIComponent t ++ m)
    = encodeURIComponent o' ++ String "&" (tag ++ encodeURIComponent t' ++ m) ->
  o = o' /\ t = t'.
Proof.
  intros H.
  apply split_at_first in H as [Ho Ht]; [|by apply encode_excludes..].
  apply string_app_inv_head, string_app_inv_tail in Ht.
  split; by apply encodeURIComponent_inj.
Qed.

End EncodeAlphabet.

(** X12.  The links of a directions result determine its end points.
    Origin and destination go into [generateDirectionsUrl] and
    [generateEmbedDirectionsUrl] percent-encoded, and the encoding holds
    no [&]; so two requests with the same travel mode (and API key) that
    get the same link have the same origin and the same destination: no
    text given as origin can pass for another origin together with a
    destination of its own. *)
Theorem route_links_determine_endpoints
    (apiKey origin destination origin' destination' mode : string) :
  (Maps.generateDirectionsUrl origin destination mode
     = Maps.generateDirectionsUrl origin' destination' mode ->
   origin = origin' /\ destination = destination') /\
  (Maps.generateEmbedDirectionsUrl apiKey origin destination mode
     = Maps.generateEmbedDirectionsUrl apiKey origin' destination' mode ->
   origin = origin' /\ destination = destination').
Proof.
  unfold Maps.generateDirectionsUrl, Maps.generateEmbedDirectionsUrl. split.
  - set (m := if Js.truthy mode then _ else _). intros H.
    apply string_app_inv_head in H.
    by apply (encoded_pair_inj "destination=") in H.
  - set (m := if Js.truthy mode then _ else _). intros H.
    apply string_app_inv_head, string_app_inv_head in H.
    apply (string_app_inv_head "&origin=") in H.
    by apply (encoded_pair_inj "destination=") in H.
Qed.

(** Instances: a link gives back its end points, and an origin that
    spells out a destination parameter does not get the link of the
    request with that destination. *)
Lemma route_links_determine_endpoints_witness :
  ("Monas" = "Monas" /\ "Kota Tua" = "Kota Tua") /\
  Maps.generateDirectionsUrl "Monas&destination=Bogor" "Kota Tua" "driving"
    <> Maps.generateDirectionsUrl "Monas" "Bogor&destination=Kota Tua" "driving".
Proof.
  split.
  - exact (proj1 (route_links_determine_endpoints "KEY" "Monas" "Kota Tua" "Monas"
                    "Kota Tua" "driving") eq_refl).
  - intros H.
    apply (proj1 (route_links_determine_endpoints "KEY" _ _ _ _ "driving")) in H.
    destruct H as [H _]. discriminate H.
Defined.

(** ** Direction links *)

Lemma string_app_empty_r (s : string) : s ++ "" = s.
Proof. induction s as [|c s IH]; [done|]. rewrite string_app_cons. by f_equal. Qed.

(** X13.  The links of a directions result.  Origin and destination go
    into both links percent-encoded, so whatever text they are, the
    canonical link is a syntactically valid URL when the travel mode is
    made of URL characters, as the four modes the validator accepts are,
    and the embed link is one when the API key is too.  The mode
    parameter is left out exactly when the mode is the empty string. *)
Theorem directions_links (apiKey : string) (params : Maps.GetDirectionsRequest)
    (response : Maps.DirectionsResponse) (d : Maps.DirectionsResult) :
  Maps.getDirections apiKey params (inr response) = inr d ->
  let o := Maps.encodeURIComponent (Maps.origin params) in
  let t := Maps.encodeURIComponent (Maps.destination params) in
  (Maps.mode params = "" ->
     Maps.dr_googleMapsUrl d
       = "https://www.google.com/maps/dir/?api=1&origin=" ++ o ++ "&destination=" ++ t /\
     Maps.dr_embedMapUrl d
       = "https://www.google.com/maps/embed/v1/directions?key=" ++ apiKey
           ++ "&origin=" ++ o ++ "&destination=" ++ t) /\
  (Maps.mode params <> "" ->
     Maps.dr_googleMapsUrl d
       = "https://www.google.com/maps/dir/?api=1&origin=" ++ o ++ "&destination=" ++ t
           ++ "&travelmode=" ++ Maps.mode params /\
     Maps.dr_embedMapUrl d
       = "https://www.google.com/maps/embed/v1/directions?key=" ++ apiKey
           ++ "&origin=" ++ o ++ "&destination=" ++ t ++ "&mode=" ++ Maps.mode params) /\
  (Url.chars_ok (Maps.mode params) = true ->
     Url.is_valid_url (Maps.dr_googleMapsUrl d) = true /\
     (Url.chars_ok apiKey = true -> Url.is_valid_url (Maps.dr_embedMapUrl d) = true)) /\
  (In (Maps.mode params) ["driving"; "walking"; "bicycling"; "transit"] ->
     Url.chars_ok (Maps.mode params) = true).
Proof.
  unfold Maps.getDirections. destruct (negb _); [done|].
  destruct (Maps.routes response) as [|route ?]; [done|].
  destruct (Maps.legs route) as [|leg ?]; [done|].
  intros [= <-]. simpl.
  unfold Maps.generateDirectionsUrl, Maps.generateEmbedDirectionsUrl.
  set (o := Maps.encodeURIComponent (Maps.origin params)).
  set (t := Maps.encodeURIComponent (Maps.destination params)).
  assert (Ho : Url.chars_ok o = true) by apply encodeURIComponent_chars_ok.
  assert (Ht : Url.chars_ok t = true) by apply encodeURIComponent_chars_ok.
  split_and!.
  - intros ->. simpl. by rewrite !string_app_empty_r.
  - intros Hm. by destruct (Maps.mode params).
  - intros Hm.
    assert (Hp : forall tag, Url.chars_ok tag = true ->
              Url.chars_ok (if Js.truthy (Maps.mode params)
                            then tag ++ Maps.mode params else "") = true).
    { intros tag Htag. destruct (Js.truthy _); [by apply chars_ok_app|done]. }
    split.
    + apply (valid_https "w" "ww.google.com/maps/dir/?api=1&origin="); [done|done|].
      apply chars_ok_app; [done|]. apply (chars_ok_app "&destination="); [done|].
      apply chars_ok_app; [done|]. by apply Hp.
    + intros Hk.
      apply (valid_https "w" "ww.google.com/maps/embed/v1/directions?key="); [done|done|].
      apply chars_ok_app; [done|]. apply (chars_ok_app "&origin="); [done|].
      apply chars_ok_app; [done|]. apply (chars_ok_app "&destination="); [done|].
      apply chars_ok_app; [done|]. by apply Hp.
  - intros [<-|[<-|[<-|[<-|[]]]]]; reflexivity.
Qed.

(** An instance: free text as origin and destination, on foot. *)
Lemma directions_links_witness :
  let tv := {| Maps.tv_text := "1.2 km"; Maps.tv_value := 1200 |} in
  let leg := {| Maps.leg_distance := tv; Maps.leg_duration := tv;
                Maps.start_address := "A"; Maps.end_address := "B"; Maps.steps := [] |} in
  let response := {| Maps.directions_status := "OK";
                     Maps.routes := [{| Maps.route_summary := "S"; Maps.legs := [leg] |}] |} in
  let params := {| Maps.origin := "Times Square, NY"; Maps.destination := "Caf & Bar #1";
                   Maps.mode := "walking" |} in
  exists d, Maps.getDirections "KEY" params (inr response) = inr d /\
            Url.is_valid_url (Maps.dr_googleMapsUrl d) = true /\
            Url.is_valid_url (Maps.dr_embedMapUrl d) = true.
Proof.
  intros tv leg response params. eexists. split; [reflexivity|].
  destruct (directions_links "KEY" params response _ eq_refl) as (_ & _ & Hvalid & Hmode).
  destruct (Hvalid (Hmode ltac:(simpl; tauto))) as [Hg He].
  split; [exact Hg|exact (He eq_refl)].
Defined.

(** ** More on markup stripping and on the route taken *)

Section StripMore.
Import Maps.

Lemma after_gt_split (s rest : string) :
  after_gt s = Some rest -> exists b, s = b ++ ">" ++ rest.
Proof.
  revert rest. induction s as [|x s IH]; intros rest; simpl; [done|].
  destruct (Ascii.eqb_spec x ">") as [->|Hx].
  - intros [= ->]. by exists "".
  - intros H. destruct (IH _ H) as [b ->]. by exists (String x b).
Qed.

(** Text that holds no tag is left as it is. *)
Lemma strip_tags_fixed (t : string) :
  (forall a b c, t <> a ++ "<" ++ b ++ ">" ++ c) -> strip_tags t = t.
Proof.
  induction t as [|x t IH]; intros Hno; [by simp strip_tags|].
  rewrite strip_tags_cons.
  assert (Ht : strip_tags t = t).
  { apply IH. intros a b c ->. by apply (Hno (String x a) b c). }
  destruct (Ascii.eqb_spec x "<") as [->|Hx]; [|by rewrite Ht].
  destruct (after_gt t) as [rest|] eqn:Hgt; [|by rewrite Ht].
  destruct (after_gt_split _ _ Hgt) as [b ->]. by destruct (Hno "" b rest).
Qed.

Lemma strip_tags_shorter (s : string) :
  (String.length (strip_tags s) <= String.length s)%nat.
Proof.
  remember (String.length s) as n eqn:Hn. revert s Hn.
  induction n as [n IH] using lt_wf_ind.
  intros [|x s] Hn; [simp strip_tags; simpl; lia|].
  simpl in Hn. rewrite strip_tags_cons.
  pose proof (IH (String.length s) ltac:(lia) s eq_refl) as Hs.
  destruct (Ascii.eqb x "<"); [|simpl; lia].
  destruct (after_gt s) as [rest|] eqn:Hgt; [|simpl; lia].
  pose proof (after_gt_length _ _ Hgt).
  pose proof (IH (String.length rest) ltac:(lia) rest eq_refl). lia.
Qed.

End StripMore.

(** X14.  Stripping the markup removes tags and nothing else.  Three
    equations fix its result on every text: the text before the first
    ['<'] is kept as it is (a ['>'] in it included) and the rest is
    stripped; a tag [<b>] (with no ['>'] in [b]) after such text is
    dropped and what follows is stripped in turn; and text without ['>']
    is kept whole, an unclosed ['<'] included.  The result is never
    longer than the text, and stripping a second time changes
    nothing. *)
Theorem strip_tags_removes_tags (s : string) :
  (forall a b c, Js.includes "<" a = false -> Js.includes ">" b = false ->
     s = a ++ "<" ++ b ++ ">" ++ c ->
     Maps.strip_tags s = a ++ Maps.strip_tags c) /\
  (forall a rest, Js.includes "<" a = false -> s = a ++ rest ->
     Maps.strip_tags s = a ++ Maps.strip_tags rest) /\
  (Js.includes ">" s = false -> Maps.strip_tags s = s) /\
  (String.length (Maps.strip_tags s) <= String.length s)%nat /\
  Maps.strip_tags (Maps.strip_tags s) = Maps.strip_tags s.
Proof.
  split_and!.
  - intros a b c Ha Hb ->. by apply strip_tags_tag.
  - intros a rest Ha ->. by apply strip_tags_text.
  - intros Hgt. apply strip_tags_no_gt. by apply after_gt_absent.
  - apply strip_tags_shorter.
  - apply strip_tags_fixed. apply strip_tags_no_tag.
Qed.

(** An instance: one tag with an attribute between two words. *)
Lemma strip_tags_removes_tags_witness :
  Maps.strip_tags "Turn <b class=x>left" = "Turn " ++ Maps.strip_tags "left".
Proof.
  exact (proj1 (strip_tags_removes_tags "Turn <b class=x>left")
           "Turn " "b class=x" "left" eq_refl eq_refl eq_refl).
Defined.

(** X15.  [getDirections] reads the first leg of the first route and
    nothing else of the routes: further routes, and further legs of the
    first route, change nothing in the result. *)
Theorem directions_first_route_only (apiKey : string) (params : Maps.GetDirectionsRequest)
    (status : string) (route : Maps.Route) (routes : list Maps.Route)
    (leg : Maps.Leg) (legs : list Maps.Leg) :
  Maps.legs route = leg :: legs ->
  Maps.getDirections apiKey params
    (inr {| Maps.directions_status := status; Maps.routes := route :: routes |})
  = Maps.getDirections apiKey params
      (inr {| Maps.directions_status := status;
              Maps.routes := [{| Maps.route_summary := Maps.route_summary route;
                                 Maps.legs := [leg] |}] |}).
Proof.
  intros Hl. unfold Maps.getDirections. simpl. by rewrite Hl.
Qed.

(** An instance: two routes, the first with two legs. *)
Lemma directions_first_route_only_witness :
  let tv n := {| Maps.tv_text := "x"; Maps.tv_value := n |} in
  let leg n := {| Maps.leg_distance := tv n; Maps.leg_duration := tv n;
                  Maps.start_address := "A"; Maps.end_address := "B"; Maps.steps := [] |} in
  let params := {| Maps.origin := "A"; Maps.destination := "B"; Maps.mode := "driving" |} in
  let r1 := {| Maps.route_summary := "first"; Maps.legs := [leg 1%Q; leg 2%Q] |} in
  let r2 := {| Maps.route_summary := "second"; Maps.legs := [leg 3%Q] |} in
  Maps.getDirections "KEY" params
    (inr {| Maps.directions_status := "OK"; Maps.routes := [r1; r2] |})
  = Maps.getDirections "KEY" params
      (inr {| Maps.directions_status := "OK";
              Maps.routes := [{| Maps.route_summary := "first"; Maps.legs := [leg 1%Q] |}] |}).
Proof.
  intros tv leg params r1 r2.
  exact (directions_first_route_only "KEY" params "OK" r1 [r2] (leg 1%Q) [leg 2%Q] eq_refl).
Defined.

(** ** From the validated request to the provider *)

Section ShapeFacts.
Import Zod.

Lemma required_string_ok (msg : string) (p : list string) (v : option json) (q : string) :
  z_string [min_length 1 msg] p v = inr q <->
  v = Some (JStr q) /\ (1 <= String.length q)%nat.
Proof.
  unfold z_string.
  destruct v as [[| | |s| |]|]; try (split; [done|by intros [? _]]).
  unfold run_checks, min_length. simpl.
  destruct (Nat.ltb_spec (String.length s) 1); simpl; split.
  - done.
  - intros [[= ->] ?]. lia.
  - intros [= ->]. split; [done|lia].
  - by intros [[= ->] _].
Qed.

Lemma radius_default_ok (d : Q) (p : list string) (v : option json) (r : Q) :
  Qle_bool 1 d = true -> Qle_bool d 50000 = true ->
  z_optional_default (z_number [min_value 1; max_value 50000]) (JNum d) p v = inr r <->
  (v = None /\ r = d) \/ (v = Some (JNum r) /\ (1 <= r)%Q /\ (r <= 50000)%Q).
Proof.
  intros Hd1 Hd2. unfold z_optional_default, z_number.
  destruct v as [[| |x| | |]|];
    try (split; [done|intros [[? ?]|[? ?]]; done]).
  - unfold run_checks, min_value, max_value. simpl.
    destruct (Qle_bool 1 x) eqn:H1, (Qle_bool x 50000) eqn:H2; simpl.
    + split.
      * intros [= ->]. right. by rewrite <- !Qle_bool_iff.
      * intros [[? ?]|[[= ->] ?]]; done.
    + split; [done|]. intros [[? ?]|[[= ->] [_ H]]]; [done|].
      apply Qle_bool_iff in H. congruence.
    + split; [done|]. intros [[? ?]|[[= ->] [H _]]]; [done|].
      apply Qle_bool_iff in H. congruence.
    + split; [done|]. intros [[? ?]|[[= ->] [H _]]]; [done|].
      apply Qle_bool_iff in H. congruence.
  - unfold run_checks, min_value, max_value. simpl. rewrite Hd1, Hd2. simpl. split.
    + intros [= <-]. by left.
    + intros [[_ ->]|[? _]]; done.
Qed.

Lemma truthy_num_ge_1 (r : Q) : (1 <= r)%Q -> Outbound.truthy_num r = true.
Proof.
  intros H. unfold Outbound.truthy_num. destruct (Qeq_bool r 0) eqn:E; [|done].
  apply Qeq_bool_iff in E. rewrite E in H. by vm_compute in H.
Qed.

End ShapeFacts.

(** X16.  What a validated search request sends to the provider.  The
    API key and the query, a non-empty text of at most 500 UTF-16
    units, are always sent; so is the radius, the
    default 5000 included, because the validator leaves no radius below
    1 and the service drops only a radius of 0; a location or type that
    is the empty string is accepted by the validator and not sent. *)
Theorem search_request_shape (apiKey : string) (body : option Zod.json)
    (req : Zod.SearchPlacesRequest) :
  Zod.SearchPlacesSchema body = inr req ->
  let sent := Outbound.textSearch_params apiKey req in
  Outbound.ts_key sent = apiKey /\
  Outbound.ts_query sent = Zod.query req /\
  (1 <= String.length (Outbound.ts_query sent))%nat /\
  (Js.utf16_length (Outbound.ts_query sent) <= 500)%nat /\
  Outbound.ts_radius sent = Some (Zod.radius req) /\
  (1 <= Zod.radius req)%Q /\ (Zod.radius req <= 50000)%Q /\
  (forall l, Outbound.ts_location sent = Some l <->
             Zod.location req = Some l /\ l <> "") /\
  (forall t, Outbound.ts_type sent = Some t <-> Zod.type_ req = Some t /\ t <> "").
Proof.
  destruct body as [[| | | | |fields]|]; try done.
  intros (Hq & _ & Hr & _)%SearchPlacesSchema_accepts sent.
  apply query_schema_ok in Hq as (_ & Hlen1 & Hlen2).
  assert (Hb : (1 <= Zod.radius req)%Q /\ (Zod.radius req <= 50000)%Q).
  { apply radius_schema_ok in Hr as [[_ ->]|[_ ?]]; [by vm_compute|done]. }
  assert (Hs : forall o l, Outbound.spread o = Some l <-> o = Some l /\ l <> "").
  { intros [[|c s]|] l; unfold Outbound.spread; simpl; split;
      try done; try (by intros [? ?]).
    - by intros [[= <-] ?].
    - by intros [= <-]. }
  unfold sent, Outbound.textSearch_params. simpl.
  rewrite (truthy_num_ge_1 _ (proj1 Hb)).
  split_and!; try done; try apply Hb; try lia; intros ?; apply Hs.
Qed.

(** An instance: a body with a query and an empty location. *)
Lemma search_request_shape_witness :
  let body := Some (Zod.JObj [("query", Zod.JStr "coffee"); ("location", Zod.JStr "")]) in
  exists req,
    Zod.SearchPlacesSchema body = inr req /\
    Outbound.textSearch_params "KEY" req
    = {| Outbound.ts_query := "coffee"; Outbound.ts_key := "KEY";
         Outbound.ts_location := None; Outbound.ts_radius := Some 5000%Q;
         Outbound.ts_type := None |} /\
    Outbound.ts_radius (Outbound.textSearch_params "KEY" req) = Some (Zod.radius req).
Proof.
  intros body. eexists. split; [reflexivity|]. split; [reflexivity|].
  destruct (search_request_shape "KEY" body _ eq_refl) as (_ & _ & _ & _ & Hr & _).
  exact Hr.
Defined.

(** ** The other schemas *)

Lemma GetNearbyPlacesSchema_accepts (fields : list (string * Zod.json))
    (req : Schemas.GetNearbyPlacesRequest) :
  Schemas.GetNearbyPlacesSchema (Some (Zod.JObj fields)) = inr req <->
  Zod.z_string [Zod.min_length 1 "Location is required"] ["location"]
    (Zod.get "location" fields) = inr (Schemas.location req) /\
  Zod.z_optional_default (Zod.z_number [Zod.min_value 1; Zod.max_value 50000])
    (Zod.JNum 1500) ["radius"] (Zod.get "radius" fields) = inr (Schemas.radius req) /\
  Zod.text_schema ["type"] (Zod.get "type" fields) = inr (Schemas.type_ req) /\
  Zod.text_schema ["keyword"] (Zod.get "keyword" fields) = inr (Schemas.keyword req).
Proof.
  unfold Schemas.GetNearbyPlacesSchema.
  destruct (Zod.z_string _ _ _) as [?|l1], (Zod.z_optional_default _ _ _ _) as [?|r2],
    (Zod.text_schema ["type"] _) as [?|t3], (Zod.text_schema ["keyword"] _) as [?|k4];
    (split; [try done|try (by intros (? & ? & ? & ?))]).
  - by intros [= <-].
  - destruct req. simpl. by intros ([= ->] & [= ->] & [= ->] & [= ->]).
Qed.

(** X17.  The validator of nearby-places accepts a body exactly when it
    is an object whose [location] is a non-empty string, whose
    [radius], when present, is a number in [1, 50000], and whose [type]
    and [keyword], when present, are strings.  The radius of the parsed
    request is the one sent, 1500 when none was sent, and it is passed
    on to the provider as it is, with the location and the API key. *)
Theorem nearby_places_validation (apiKey : string) (body : option Zod.json) :
  ((exists req, Schemas.GetNearbyPlacesSchema body = inr req) <->
   exists fields, body = Some (Zod.JObj fields) /\
     (exists l, Zod.get "location" fields = Some (Zod.JStr l) /\
                (1 <= String.length l)%nat) /\
     (Zod.get "radius" fields = None \/
      exists r, Zod.get "radius" fields = Some (Zod.JNum r) /\
                (1 <= r)%Q /\ (r <= 50000)%Q) /\
     (Zod.get "type" fields = None \/
      exists s, Zod.get "type" fields = Some (Zod.JStr s)) /\
     (Zod.get "keyword" fields = None \/
      exists s, Zod.get "keyword" fields = Some (Zod.JStr s))) /\
  (forall fields req,
     body = Some (Zod.JObj fields) -> Schemas.GetNearbyPlacesSchema body = inr req ->
     let sent := Outbound.placesNearby_params apiKey req in
     Zod.get "location" fields = Some (Zod.JStr (Schemas.location req)) /\
     (Zod.get "radius" fields = None -> Schemas.radius req = 1500%Q) /\
     (forall r, Zod.get "radius" fields = Some (Zod.JNum r) -> Schemas.radius req = r) /\
     Outbound.pn_location sent = Schemas.location req /\
     Outbound.pn_radius sent = Schemas.radius req /\
     (1 <= Outbound.pn_radius sent)%Q /\ (Outbound.pn_radius sent <= 50000)%Q /\
     Outbound.pn_key sent = apiKey).
Proof.
  split.
  - split.
    + intros [req Hreq].
      destruct body as [[| | | | |fields]|]; try done.
      apply GetNearbyPlacesSchema_accepts in Hreq as (Hl & Hr & Ht & Hk).
      exists fields. split; [done|]. split_and!.
      * exists (Schemas.location req). by apply required_string_ok in Hl.
      * apply radius_default_ok in Hr as [[? _]|?]; [by left|right; eauto|done..].
      * apply (text_schema_ok ["type"]). eauto.
      * apply (text_schema_ok ["keyword"]). eauto.
    + intros (fields & -> & (l & Hl & Hlen) & Hr & Ht & Hk).
      apply (text_schema_ok ["type"]) in Ht as [t Ht].
      apply (text_schema_ok ["keyword"]) in Hk as [k Hk].
      assert (exists r, Zod.z_optional_default
                          (Zod.z_number [Zod.min_value 1; Zod.max_value 50000])
                          (Zod.JNum 1500) ["radius"] (Zod.get "radius" fields) = inr r)
        as [r Hrad].
      { destruct Hr as [Hr|(r & Hr & Hb)].
        - exists 1500%Q. apply radius_default_ok; [done|done|by left].
        - exists r. apply radius_default_ok; [done|done|by right]. }
      exists {| Schemas.location := l; Schemas.radius := r;
                Schemas.type_ := t; Schemas.keyword := k |}.
      apply GetNearbyPlacesSchema_accepts. simpl. split_and!; try done.
      by apply required_string_ok.
  - intros fields req -> Hreq sent.
    apply GetNearbyPlacesSchema_accepts in Hreq as (Hl & Hr & _ & _).
    apply required_string_ok in Hl as [Hl _].
    apply radius_default_ok in Hr; [|done..].
    unfold sent, Outbound.placesNearby_params. simpl. split_and!; try done.
    + intros Hnone. destruct Hr as [[_ ?]|[Hr _]]; [done|congruence].
    + intros r Hsome. destruct Hr as [[Hr _]|[Hr _]]; congruence.
    + destruct Hr as [[_ ->]|[_ [? _]]]; [by vm_compute|done].
    + destruct Hr as [[_ ->]|[_ [_ ?]]]; [by vm_compute|done].
Qed.

(** Instances: a body with only a location, and one with a radius of 0. *)
Lemma nearby_places_validation_witness :
  let ok := Some (Zod.JObj [("location", Zod.JStr "-6.2,106.8")]) in
  let bad := Some (Zod.JObj [("location", Zod.JStr "-6.2,106.8"); ("radius", Zod.JNum 0)]) in
  (exists req, Schemas.GetNearbyPlacesSchema ok = inr req /\
               Schemas.radius req = 1500%Q) /\
  ~ exists req, Schemas.GetNearbyPlacesSchema bad = inr req.
Proof.
  intros ok bad. split.
  - destruct (nearby_places_validation "KEY" ok) as [_ Hvalue].
    eexists. split; [reflexivity|].
    exact (proj1 (proj2 (Hvalue _ _ eq_refl eq_refl)) eq_refl).
  - destruct (nearby_places_validation "KEY" bad) as [Hiff _].
    intros Hacc. apply Hiff in Hacc as (fields & [= <-] & _ & Hr & _).
    destruct Hr as [Hr|(r & [= <-] & Hr & _)]; [discriminate Hr|].
    by vm_compute in Hr.
Defined.

(** X18.  The validator of place-details accepts a body exactly when it
    is an object whose [placeId] is a non-empty string, and passes that
    string on; an empty [placeId] is reported as
    ["Place ID is required"] under the path [placeId]; and the provider
    is asked for that place with the fixed list of fourteen fields. *)
Theorem place_details_validation (apiKey : string) (body : option Zod.json) :
  ((exists req, Schemas.GetPlaceDetailsSchema body = inr req) <->
   exists fields p, body = Some (Zod.JObj fields) /\
     Zod.get "placeId" fields = Some (Zod.JStr p) /\ p <> "") /\
  (forall fields req,
     body = Some (Zod.JObj fields) -> Schemas.GetPlaceDetailsSchema body = inr req ->
     Zod.get "placeId" fields = Some (Zod.JStr (Schemas.placeId req)) /\
     Outbound.pd_place_id (Outbound.placeDetails_params apiKey req) = Schemas.placeId req /\
     Outbound.pd_key (Outbound.placeDetails_params apiKey req) = apiKey /\
     length (Outbound.pd_fields (Outbound.placeDetails_params apiKey req)) = 14%nat) /\
  (forall fields,
     body = Some (Zod.JObj fields) -> Zod.get "placeId" fields = Some (Zod.JStr "") ->
     Schemas.GetPlaceDetailsSchema body
     = inl [{| Zod.path := ["placeId"];
               Zod.message := Zod.Custom "Place ID is required" |}]).
Proof.
  assert (Hacc : forall fields req,
            Schemas.GetPlaceDetailsSchema (Some (Zod.JObj fields)) = inr req <->
            Zod.get "placeId" fields = Some (Zod.JStr (Schemas.placeId req)) /\
            (1 <= String.length (Schemas.placeId req))%nat).
  { intros fields req.
    rewrite <- (required_string_ok "Place ID is required" ["placeId"]).
    unfold Schemas.GetPlaceDetailsSchema.
    destruct (Zod.z_string _ _ _) as [?|p]; [split; intros H; discriminate H|].
    destruct req as [p']. simpl. split; by intros [= ->]. }
  split_and!.
  - split.
    + intros [req Hreq]. destruct body as [[| | | | |fields]|]; try done.
      apply Hacc in Hreq as [Hp Hlen]. exists fields, (Schemas.placeId req).
      split_and!; try done. intros E. rewrite E in Hlen. simpl in Hlen. lia.
    + intros (fields & p & -> & Hp & Hne). exists {| Schemas.placeId := p |}.
      apply Hacc. simpl. split; [done|]. destruct p; [done|simpl; lia].
  - intros fields req -> Hreq. apply Hacc in Hreq as [Hp _]. by split_and!.
  - intros fields -> Hp. unfold Schemas.GetPlaceDetailsSchema. by rewrite Hp.
Qed.

(** Instances: an identifier, and an empty one. *)
Lemma place_details_validation_witness :
  (exists req, Schemas.GetPlaceDetailsSchema
                 (Some (Zod.JObj [("placeId", Zod.JStr "ChIJ1")])) = inr req) /\
  Schemas.GetPlaceDetailsSchema (Some (Zod.JObj [("placeId", Zod.JStr "")]))
  = inl [{| Zod.path := ["placeId"]; Zod.message := Zod.Custom "Place ID is required" |}].
Proof.
  split.
  - apply (proj1 (place_details_validation "KEY" _)).
    eexists _, _. split; [reflexivity|]. split; [reflexivity|]. intros H. discriminate H.
  - exact (proj2 (proj2 (place_details_validation "KEY"
                           (Some (Zod.JObj [("placeId", Zod.JStr "")]))))
             [("placeId", Zod.JStr "")] eq_refl eq_refl).
Defined.

(** ** Route handlers *)

Lemma errorHandler_status (err : Http.JsError) :
  Http.status (Http.errorHandler err) = 400 \/
  Http.status (Http.errorHandler err) = 502 \/
  Http.status (Http.errorHandler err) = 500.
Proof.
  unfold Http.errorHandler. destruct (Http.zod_issues err); [by left|].
  destruct (Js.includes _ _); [by right; left|by right; right].
Qed.

(** X19.  What a POST handler answers, for any schema and service.  The
    answer is a success with status 200 exactly when the body was read,
    the schema accepted it and the service returned; otherwise it is the
    error handler's reply to what was thrown, with status 400, 502 or
    500.  A body the schema rejects is answered 400 with the issues as
    details and the service is not consulted: the answer is the same
    whatever the service would do. *)
Theorem handler_answers {Req D : Type} (zod_text : list Zod.issue -> string)
    (schema : option Zod.json -> list Zod.issue + Req)
    (service : Req -> Http.JsError + D) (body : Http.JsError + Zod.json) :
  let r := Routes.handler zod_text schema service body in
  (Routes.status_of r = 200 \/ Routes.status_of r = 400 \/
   Routes.status_of r = 502 \/ Routes.status_of r = 500) /\
  (forall d, r = Routes.Success d <->
     exists json v, body = inr json /\ schema (Some json) = inr v /\ service v = inr d) /\
  (forall e, body = inl e -> r = Routes.Failure (Http.errorHandler e)) /\
  (forall json issues, body = inr json -> schema (Some json) = inl issues ->
     r = Routes.Failure
           (Http.fail "VALIDATION_ERROR" "Invalid request parameters" 400
              (Some (map (fun e => {| Http.path := Http.join "." (Zod.path e);
                                      Http.detail_message := Zod.message e |}) issues))) /\
     forall service' : Req -> Http.JsError + D,
       Routes.handler zod_text schema service' body = r) /\
  (forall json v e, body = inr json -> schema (Some json) = inr v -> service v = inl e ->
     r = Routes.Failure (Http.errorHandler e)).
Proof.
  intros r. unfold r, Routes.handler. split_and!.
  - destruct body as [e|json]; [right; apply errorHandler_status|].
    destruct (schema (Some json)) as [issues|v]; [right; apply errorHandler_status|].
    destruct (service v) as [e|d]; [right; apply errorHandler_status|by left].
  - intros d. split.
    + destruct body as [e|json]; [done|].
      destruct (schema (Some json)) as [issues|v] eqn:Hs; [done|].
      destruct (service v) as [e|d'] eqn:Hv; [done|]. intros [= <-]. by exists json, v.
    + intros (json & v & -> & Hs & Hv). by rewrite Hs, Hv.
  - by intros e ->.
  - intros json issues -> Hs. rewrite Hs. done.
  - intros json v e -> Hs Hv. by rewrite Hs, Hv.
Qed.

(** An instance: the place-details schema on an empty object, with a service that fails. *)
Lemma handler_answers_witness :
  Routes.handler (fun _ => "invalid")
    Schemas.GetPlaceDetailsSchema
    (fun _ : Schemas.GetPlaceDetailsRequest => inl (Http.Error "down") : Http.JsError + unit)
    (inr (Zod.JObj []))
  = Routes.Failure
      (Http.fail "VALIDATION_ERROR" "Invalid request parameters" 400
         (Some [{| Http.path := "placeId";
                   Http.detail_message :=
                     Zod.Default (Zod.invalid_type Zod.TString Zod.TUndefined) |}])).
Proof.
  exact (proj1 (proj1 (proj2 (proj2 (proj2
           (handler_answers (fun _ => "invalid") Schemas.GetPlaceDetailsSchema
              (fun _ => inl (Http.Error "down") : Http.JsError + unit)
              (inr (Zod.JObj [])))))) _ _ eq_refl eq_refl)).
Defined.

(** X20.  The search-places route from end to end.  A body the
    validator rejects is answered 400 VALIDATION_ERROR whatever the
    provider would answer.  For an accepted body the answer depends on
    the provider's reply to the parameters made from the validated
    request: a reply of
    status [OK] or [ZERO_RESULTS] gives a success whose data has one
    normalised place per result, in order; any other status gives 502
    GOOGLE_MAPS_ERROR with the status in the message; and a call that
    throws gives the error handler's reply to that error. *)
Theorem search_places_route (zod_text : list Zod.issue -> string) (apiKey : string)
    (number_to_string : Q -> string)
    (client : Outbound.TextSearchParams -> Http.JsError + Maps.PlacesResponse)
    (json : Zod.json) :
  let answer := Routes.search_places zod_text apiKey number_to_string client (inr json) in
  (forall issues, Zod.SearchPlacesSchema (Some json) = inl issues ->
     Routes.status_of answer = 400 /\
     forall client', Routes.search_places zod_text apiKey number_to_string client' (inr json)
                     = answer) /\
  (forall req, Zod.SearchPlacesSchema (Some json) = inr req ->
     let call := client (Outbound.textSearch_params apiKey req) in
     (forall response, call = inr response ->
        Maps.places_status response = "OK" \/ Maps.places_status response = "ZERO_RESULTS" ->
        answer = Routes.Success
                   (map (Maps.formatPlaceResult apiKey number_to_string)
                      (Maps.results response))) /\
     (forall response, call = inr response ->
        ~ (Maps.places_status response = "OK" \/
           Maps.places_status response = "ZERO_RESULTS") ->
        answer = Routes.Failure
                   (Http.fail "GOOGLE_MAPS_ERROR"
                      ("Google Maps API error: " ++ Maps.places_status response) 502 None)) /\
     (forall e, call = inl e -> answer = Routes.Failure (Http.errorHandler e))).
Proof.
  intros answer. unfold answer, Routes.search_places, Routes.handler. split.
  - intros issues ->. split; [done|done].
  - intros req Hreq. rewrite Hreq. cbv zeta. split_and!.
    + intros response Hcall Hok. rewrite Hcall. unfold Maps.searchPlaces.
      apply search_status_test in Hok. by rewrite Hok.
    + intros response Hcall Hno. rewrite Hcall. unfold Maps.searchPlaces.
      pose proof (search_status_test (Maps.places_status response)) as Htest.
      destruct (negb _ && negb _); [|by destruct Hno; apply Htest].
      by rewrite errorHandler_api_error.
    + intros e Hcall. by rewrite Hcall.
Qed.

(** Instances: one result from the provider for a valid query; and a
    query of 300 two-byte letters, which is within the 500 characters
    and goes to the provider. *)
Lemma search_places_route_witness :
  let place :=
    {| Maps.place_id := Some "ChIJ1"; Maps.name := Some "Kopi Kenangan";
       Maps.formatted_address := Some "Jakarta"; Maps.vicinity := None;
       Maps.geometry := None; Maps.rating := Some (43 # 10)%Q;
       Maps.user_ratings_total := None; Maps.types := None; Maps.business_status := None;
       Maps.price_level := None; Maps.photos := None; Maps.formatted_phone_number := None;
       Maps.website := None; Maps.opening_hours := None; Maps.reviews := None |} in
  let client (_ : Outbound.TextSearchParams) : Http.JsError + Maps.PlacesResponse :=
    inr {| Maps.places_status := "OK"; Maps.results := [place] |} in
  let json := Zod.JObj [("query", Zod.JStr "coffee shops in Jakarta")] in
  let none (_ : Outbound.TextSearchParams) : Http.JsError + Maps.PlacesResponse :=
    inr {| Maps.places_status := "ZERO_RESULTS"; Maps.results := [] |} in
  let long := Zod.JObj [("query", Zod.JStr (String.concat "" (repeat "é" 300)))] in
  (exists r,
     Routes.search_places (fun _ => "invalid") "KEY" (fun _ => "0") client (inr json)
       = Routes.Success [r] /\
     Maps.pr_name r = "Kopi Kenangan" /\
     Maps.googleMapsUrl r = "https://www.google.com/maps/place/?q=place_id:ChIJ1") /\
  Routes.search_places (fun _ => "invalid") "KEY" (fun _ => "0") none (inr long)
    = Routes.Success [].
Proof.
  intros place client json none long. split.
  - eexists. split.
    + exact (proj1 (proj2 (search_places_route (fun _ => "invalid") "KEY" (fun _ => "0")
                             client json) _ eq_refl) _ eq_refl (or_introl eq_refl)).
    + split; reflexivity.
  - exact (proj1 (proj2 (search_places_route (fun _ => "invalid") "KEY" (fun _ => "0")
                           none long) _ eq_refl) _ eq_refl (or_intror eq_refl)).
Defined.
